(** * Playlist reconciliation: a shallow embedding of [server.js]

    The development follows the generate / match / refill loop of the
    server: the track-key normaliser, the artist confidence score, the
    selection of the best search result, the candidate generator's
    post-filter and the reconciliation engine [buildMatchedTrackPool],
    then its callers: the playlist creation with its batch loop, the two
    preview loops, the parser and the escape of the Slack command, and the
    escape of the web page ([public/app.js]).

    Conventions of the embedding.
    - A JavaScript string is a [string]; each character stands for one
      UTF-16 code unit below 256 (the Latin-1 range), on which
      [toLowerCase], the class [\s] and [trim] are given exactly.
    - Track counts are integers ([Z]); a JSON number is an integer or one
      of the three non-finite values.
    - Confidence scores are exact rationals ([Q]).  The only operations
      on them are one division of two token counts, [Math.max] and
      comparisons, which agree with their floating-point versions for
      every string a JavaScript engine can hold.
    - [Set] objects are [gset string]; arrays are lists.
    - The catalogue, the text generator and [JSON.parse] are collaborators
      of the program: they are the fields of the class [Collaborators],
      and every effectful function threads the collaborators' state and a
      log of the outbound calls. *)

From Stdlib Require Import ZArith QArith Qminmax String Ascii List Lia Lqa DecimalString.
From Stdlib Require Import Sorted Permutation.
From stdpp Require Import gmap strings list.

Set Warnings "-register-all".
Open Scope string_scope.
Open Scope Z_scope.

(** ** JavaScript strings *)

Definition code (c : ascii) : Z := Z.of_N (N_of_ascii c).

(** The class [\s] (and the characters removed by [trim]) below 256. *)
Definition isWhiteSpace (c : ascii) : bool :=
  ((9 <=? code c) && (code c <=? 13)) || (code c =? 32) || (code c =? 160).

Definition isLowerAlpha (c : ascii) : bool := (97 <=? code c) && (code c <=? 122).
Definition isDigit (c : ascii) : bool := (48 <=? code c) && (code c <=? 57).

Definition toLowerChar (c : ascii) : ascii :=
  if ((65 <=? code c) && (code c <=? 90))
     || ((192 <=? code c) && (code c <=? 222) && negb (code c =? 215))
  then ascii_of_N (Z.to_N (code c + 32))
  else c.

Fixpoint toLowerCase (s : string) : string :=
  match s with
  | EmptyString => EmptyString
  | String c s' => String (toLowerChar c) (toLowerCase s')
  end.

(** [.replace(/[^a-z0-9\s]/g, ' ')] *)
Fixpoint replaceNonAlnum (s : string) : string :=
  match s with
  | EmptyString => EmptyString
  | String c s' =>
      String (if isLowerAlpha c || isDigit c || isWhiteSpace c then c else " "%char)
             (replaceNonAlnum s')
  end.

(** [.replace(/\s+/g, ' ')]: [inRun] tells that the previous character
    belonged to the run of white space being replaced. *)
Fixpoint collapseFrom (inRun : bool) (s : string) : string :=
  match s with
  | EmptyString => EmptyString
  | String c s' =>
      if isWhiteSpace c
      then (if inRun then collapseFrom true s' else String " " (collapseFrom true s'))
      else String c (collapseFrom false s')
  end.

Definition collapseWhitespace (s : string) : string := collapseFrom false s.

Fixpoint trimStart (s : string) : string :=
  match s with
  | EmptyString => EmptyString
  | String c s' => if isWhiteSpace c then trimStart s' else s
  end.

Fixpoint trimEnd (s : string) : string :=
  match s with
  | EmptyString => EmptyString
  | String c s' =>
      match trimEnd s' with
      | EmptyString => if isWhiteSpace c then EmptyString else String c EmptyString
      | r => String c r
      end
  end.

Definition trim (s : string) : string := trimEnd (trimStart s).

Definition isEmpty (s : string) : bool :=
  match s with EmptyString => true | _ => false end.

(** [s.split(' ')] *)
Fixpoint splitSpace (s : string) : list string :=
  match s with
  | EmptyString => [EmptyString]
  | String c s' =>
      if Ascii.eqb c " "
      then EmptyString :: splitSpace s'
      else match splitSpace s' with
           | h :: t => String c h :: t
           | [] => [String c EmptyString]
           end
  end.

(** [s.split(' ').filter(Boolean)] *)
Definition tokens (s : string) : list string :=
  List.filter (fun t => negb (isEmpty t)) (splitSpace s).

(** [s.includes(sub)] *)
Fixpoint includes (s sub : string) : bool :=
  if String.prefix sub s then true
  else match s with
       | EmptyString => false
       | String _ s' => includes s' sub
       end.

(** [arr.join(sep)] *)
Fixpoint join (sep : string) (l : list string) : string :=
  match l with
  | [] => EmptyString
  | [x] => x
  | x :: rest => x +:+ sep +:+ join sep rest
  end.

(** ** Track key normaliser *)

Definition normalizeText (value : string) : string :=
  trim (collapseWhitespace (replaceNonAlnum (toLowerCase value))).

Definition makeTrackKey (title artist : string) : string :=
  normalizeText title +:+ "|" +:+ normalizeText artist.

(** ** Catalogue items and the artist confidence score *)

Record Artist := { artist_name : string }.

Record Item := {
  item_uri : string;
  item_name : string;
  item_artists : list Artist
}.

Definition overlapRatio (requestedTokens : list string) (candidate : string) : Q :=
  let candidateTokens : gset string := list_to_set (tokens candidate) in
  let overlap :=
    length (List.filter (fun t => bool_decide (t ∈ candidateTokens)) requestedTokens) in
  Z.of_nat overlap # Pos.of_nat (length requestedTokens).

(** The [for] loop of [getArtistConfidence]; [best] is the running maximum. *)
Fixpoint confidenceLoop (requested : string) (requestedTokens : list string)
    (itemArtists : list Artist) (best : Q) : Q :=
  match itemArtists with
  | [] => best
  | artist :: rest =>
      let candidate := normalizeText (artist_name artist) in
      if isEmpty candidate then confidenceLoop requested requestedTokens rest best
      else if String.eqb candidate requested then 1%Q
      else if includes candidate requested || includes requested candidate
      then confidenceLoop requested requestedTokens rest (Qmax best (92 # 100))
      else confidenceLoop requested requestedTokens rest
             (Qmax best (overlapRatio requestedTokens candidate))
  end.

Definition getArtistConfidence (itemArtists : list Artist) (requestedArtist : string) : Q :=
  let requested := normalizeText requestedArtist in
  if isEmpty requested then 0%Q
  else
    let requestedTokens := tokens requested in
    if (length requestedTokens =? 0)%nat then 0%Q
    else confidenceLoop requested requestedTokens itemArtists 0%Q.

(** ** Selecting the best search result *)

Record Scored := { sc_item : Item; sc_score : Q }.

(** [Array.prototype.sort] with the comparator [(a, b) => b.score - a.score]
    is a stable sort by descending score.  A stable sort has one result,
    given here by insertion: an element goes in front of the first element
    that the comparator does not put strictly before it. *)
Fixpoint insertByScore (x : Scored) (l : list Scored) : list Scored :=
  match l with
  | [] => [x]
  | y :: ys =>
      if Qle_bool (sc_score y) (sc_score x) then x :: l
      else y :: insertByScore x ys
  end.

Definition sortByScore (l : list Scored) : list Scored :=
  List.fold_right insertByScore [] l.

Definition scoreItems (items : list Item) (requestedArtist : string) : list Scored :=
  List.map (fun item =>
              {| sc_item := item;
                 sc_score := getArtistConfidence (item_artists item) requestedArtist |})
           items.

Definition pickBestTrackCandidate (items : list Item) (requestedArtist : string)
    : option Item :=
  match items with
  | [] => None
  | _ =>
      match sortByScore (scoreItems items requestedArtist) with
      | [] => None
      | best :: _ =>
          if negb (Qle_bool (8 # 10) (sc_score best)) then None
          else Some (sc_item best)
      end
  end.

(** ** JavaScript values

    The values that reach the server from a JSON document: the request
    bodies and the parsed answer of the text generator.  [JUndefined] is
    the value of a property that is not there.  [JObj] lists the
    properties of an object; a lookup takes the first binding. *)

Inductive JsNumber := NaN | PosInf | NegInf | Fin (z : Z).

Inductive JsVal :=
| JUndefined
| JNull
| JBool (b : bool)
| JNum (n : JsNumber)
| JStr (s : string)
| JArr (elems : list JsVal)
| JObj (fields : list (string * JsVal)).

Fixpoint assoc (k : string) (fields : list (string * JsVal)) : JsVal :=
  match fields with
  | [] => JUndefined
  | (k', v) :: rest => if String.eqb k k' then v else assoc k rest
  end.

(** [v?.k] for the property names used by the server (none of them is a
    property of a string, an array or a number). *)
Definition getField (v : JsVal) (k : string) : JsVal :=
  match v with
  | JObj fields => assoc k fields
  | _ => JUndefined
  end.

Definition truthy (v : JsVal) : bool :=
  match v with
  | JUndefined | JNull => false
  | JBool b => b
  | JNum NaN => false
  | JNum (Fin z) => negb (z =? 0)
  | JNum _ => true
  | JStr s => negb (isEmpty s)
  | JArr _ | JObj _ => true
  end.

(** [String(n)]; the decimal form is the one JavaScript prints below 1e21. *)
Definition numberToString (n : JsNumber) : string :=
  match n with
  | NaN => "NaN"
  | PosInf => "Infinity"
  | NegInf => "-Infinity"
  | Fin z => NilZero.string_of_int (Z.to_int z)
  end.

(** [String(v)] *)
Fixpoint toStr (v : JsVal) : string :=
  match v with
  | JUndefined => "undefined"
  | JNull => "null"
  | JBool true => "true"
  | JBool false => "false"
  | JNum n => numberToString n
  | JStr s => s
  | JArr elems =>
      join "," (List.map (fun e => match e with
                                   | JUndefined | JNull => EmptyString
                                   | _ => toStr e
                                   end) elems)
  | JObj _ => "[object Object]"
  end.

Definition Math_max (a b : JsNumber) : JsNumber :=
  match a, b with
  | NaN, _ | _, NaN => NaN
  | PosInf, _ | _, PosInf => PosInf
  | NegInf, x | x, NegInf => x
  | Fin x, Fin y => Fin (Z.max x y)
  end.

Definition Math_min (a b : JsNumber) : JsNumber :=
  match a, b with
  | NaN, _ | _, NaN => NaN
  | NegInf, _ | _, NegInf => NegInf
  | PosInf, x | x, PosInf => x
  | Fin x, Fin y => Fin (Z.min x y)
  end.

(** [n || d] on numbers: [NaN] and [0] are falsy. *)
Definition numberOr (n d : JsNumber) : JsNumber :=
  match n with
  | NaN => d
  | Fin z => if z =? 0 then d else n
  | _ => n
  end.

(** The integer carried by a finite number. *)
Definition intValue (n : JsNumber) : Z :=
  match n with Fin z => z | _ => 0 end.

(** [arr.slice(0, end)] for an integer [end]; a negative [end] counts from
    the end of the array. *)
Definition slice0 {A : Type} (l : list A) (e : Z) : list A :=
  if e <? 0 then take (Z.to_nat (Z.of_nat (length l) + e)) l
  else take (Z.to_nat e) l.

(** ** Data model of the reconciliation *)

Record Candidate := { title : string; artist : string }.

Record Match := { m_uri : string; m_matchedName : string }.

Record MatchResult := {
  requested : Candidate;
  matched : string;
  uri : string;
  duplicated : bool
}.

Record PoolState := {
  st_matched : list MatchResult;
  st_unmatched : list Candidate;
  usedUris : gset string;
  attemptedTrackKeys : gset string
}.

Record PoolResult := {
  res_matched : list MatchResult;
  res_unmatched : list Candidate;
  duplicateFillCount : Z
}.

Definition EMERGENCY_FALLBACK_TRACKS : list Candidate :=
  [ {| title := "Blinding Lights"; artist := "The Weeknd" |};
    {| title := "Dreams"; artist := "Fleetwood Mac" |};
    {| title := "Electric Feel"; artist := "MGMT" |};
    {| title := "Sunset Lover"; artist := "Petit Biscuit" |};
    {| title := "Midnight City"; artist := "M83" |};
    {| title := "Tame"; artist := "STRFKR" |};
    {| title := "Intro"; artist := "The xx" |};
    {| title := "Innerbloom"; artist := "RUFUS DU SOL" |};
    {| title := "Something About Us"; artist := "Daft Punk" |};
    {| title := "A Moment Apart"; artist := "ODESZA" |} ].

(** ** Collaborators, errors and the call log *)

(** The ways [spotifyRequest] throws. *)
Inductive SpotifyFailure :=
| ResponseNotOk (status : Z)         (* 'Spotify API error (status)' *)
| NotConnected                       (* 'Spotify not connected' *)
| RefreshFailed.                     (* 'Failed refreshing token' *)

Inductive Error :=
| SpotifyError (f : SpotifyFailure)  (* thrown by [spotifyRequest] *)
| OpenAIError                        (* the completion call rejected *)
| InvalidJson                        (* 'Model did not return valid JSON' *)
| JsonSyntaxError                    (* [JSON.parse] of the extracted block *)
| TypeError                          (* property read on [null] *)
| EmptyOrMalformed                   (* 'Generated tracklist was empty or malformed' *)
| UnableToBuild (achieved desired : Z).  (* 'Unable to build required track count' *)

Inductive Outcome (A : Type) :=
| Returned (a : A)
| Thrown (e : Error).
Arguments Returned {A} a.
Arguments Thrown {A} e.

(** The three fields interpolated into the generator's prompt. *)
Record GenRequest := {
  gen_description : string;
  gen_trackCount : Z;
  gen_exclusions : string
}.

Inductive SpotifyCall :=
| Search (query : string)                                   (* GET /search?q=..&type=track&limit=5 *)
| CreatePlaylist (name : string) (public : bool) (descr : string)  (* POST /me/playlists *)
| AddItems (playlistId : string) (uris : list string).      (* POST /playlists/:id/items *)

Record Created := { created_id : string; created_url : string }.

Inductive SpotifyReply :=
| TrackItems (items : list Item)
| PlaylistCreated (c : Created)
| NoContent.

Inductive Call :=
| CallSpotify (c : SpotifyCall)
| CallOpenAI (r : GenRequest).

(** The two remote services; [World] is whatever state they keep. *)
Class Collaborators (World : Type) := {
  spotifyRequest : SpotifyCall -> World -> (SpotifyFailure + SpotifyReply) * World;
  openaiComplete : GenRequest -> World -> option string * World
}.

(** The two built-ins of the host that are left abstract: [JSON.parse]
    ([None] when it throws) and the conversion of a string to a number. *)
Class Runtime := {
  JSON_parse : string -> option JsVal;
  StringToNumber : string -> JsNumber
}.

(** ** The effect monad: collaborators' state, call log, exceptions *)

Definition M (World A : Type) : Type :=
  World * list Call -> Outcome A * (World * list Call).

Definition ret {World A} (a : A) : M World A := fun env => (Returned a, env).

Definition throw {World A} (e : Error) : M World A := fun env => (Thrown e, env).

Definition bind {World A B} (m : M World A) (k : A -> M World B) : M World B :=
  fun env =>
    match m env with
    | (Returned a, env') => k a env'
    | (Thrown e, env') => (Thrown e, env')
    end.

Notation "x <- m ;; k" := (bind m (fun x => k))
  (at level 100, m at next level, right associativity).

Definition callSpotify {World} `{Collaborators World} (c : SpotifyCall)
    : M World SpotifyReply :=
  fun env =>
    let '(r, w) := spotifyRequest c (fst env) in
    (match r with inl f => Thrown (SpotifyError f) | inr reply => Returned reply end,
     (w, (snd env ++ [CallSpotify c])%list)).

Definition callOpenAI {World} `{Collaborators World} (r : GenRequest)
    : M World string :=
  fun env =>
    let '(o, w) := openaiComplete r (fst env) in
    (match o with Some content => Returned content | None => Thrown OpenAIError end,
     (w, (snd env ++ [CallOpenAI r])%list)).

(** The test [if (match?.uri)]: the match, when it has a non-empty uri. *)
Definition withUri (found : option Match) : option Match :=
  match found with
  | Some m => if negb (isEmpty (m_uri m)) then Some m else None
  | None => None
  end.

(** ** Candidate generator *)

(** The match of [/\{[\s\S]*\}/]: from the first opening brace to the last
    closing brace after it. *)
Fixpoint fromFirstBrace (s : string) : option string :=
  match s with
  | EmptyString => None
  | String c s' => if Ascii.eqb c "{" then Some s else fromFirstBrace s'
  end.

Fixpoint uptoLastBrace (s : string) : option string :=
  match s with
  | EmptyString => None
  | String c s' =>
      match uptoLastBrace s' with
      | Some r => Some (String c r)
      | None => if Ascii.eqb c "}" then Some (String c EmptyString) else None
      end
  end.

Definition matchBraces (text : string) : option string :=
  match fromFirstBrace text with
  | Some t => uptoLastBrace t
  | None => None
  end.

Definition hasTitleAndArtist (t : JsVal) : bool :=
  truthy (getField t "title") && truthy (getField t "artist").

Definition toCandidate (t : JsVal) : Candidate :=
  {| title := trim (toStr (getField t "title"));
     artist := trim (toStr (getField t "artist")) |}.

(** The last statement of [generateTracklist]: filter, slice, map. *)
Definition postFilter (tracks : list JsVal) (trackCount : Z) : list Candidate :=
  List.map toCandidate (slice0 (List.filter hasTitleAndArtist tracks) trackCount).

Definition renderExclusions (excludedTracks : list Candidate) : string :=
  join "; " (List.map (fun t => title t +:+ " - " +:+ artist t) (take 40 excludedTracks)).

Section Server.
Context {World : Type} `{Collaborators World} `{Runtime}.

Definition parsePotentialJson (text : string) : M World JsVal :=
  match JSON_parse text with
  | Some v => ret v
  | None =>
      match matchBraces text with
      | None => throw InvalidJson
      | Some m =>
          match JSON_parse m with
          | Some v => ret v
          | None => throw JsonSyntaxError
          end
      end
  end.

(** [parsed.tracks]: reading a property of [null] throws. *)
Definition tracksOf (parsed : JsVal) : M World JsVal :=
  match parsed with
  | JNull | JUndefined => throw TypeError
  | _ => ret (getField parsed "tracks")
  end.

Definition generateTracklist (description : string) (trackCount : Z)
    (excludedTracks : list Candidate) : M World (list Candidate) :=
  let exclusions := renderExclusions excludedTracks in
  content <- callOpenAI {| gen_description := description;
                           gen_trackCount := trackCount;
                           gen_exclusions := exclusions |} ;;
  parsed <- parsePotentialJson content ;;
  tracks <- tracksOf parsed ;;
  match tracks with
  | JArr elems =>
      if (length elems =? 0)%nat then throw EmptyOrMalformed
      else ret (postFilter elems trackCount)
  | _ => throw EmptyOrMalformed
  end.

(** ** Catalogue matcher *)

(** [data?.tracks?.items || []] *)
Definition itemsOf (data : SpotifyReply) : list Item :=
  match data with
  | TrackItems items => items
  | _ => []
  end.

Definition matchedNameOf (best : Item) : string :=
  item_name best +:+ " - " +:+ join ", " (List.map artist_name (item_artists best)).

(** The [for] loop of [findSpotifyTrackUri] over the remaining queries. *)
Fixpoint findByQueries (queries : list string) (artist : string) : M World (option Match) :=
  match queries with
  | [] => ret None
  | query :: rest =>
      data <- callSpotify (Search query) ;;
      match pickBestTrackCandidate (itemsOf data) artist with
      | Some best =>
          if negb (isEmpty (item_uri best))
          then ret (Some {| m_uri := item_uri best; m_matchedName := matchedNameOf best |})
          else findByQueries rest artist
      | None => findByQueries rest artist
      end
  end.

Definition findSpotifyTrackUri (c : Candidate) : M World (option Match) :=
  findByQueries
    [ "track:" +:+ title c +:+ " artist:" +:+ artist c;
      title c +:+ " " +:+ artist c ]
    (artist c).

(** ** Reconciliation engine *)

(** One iteration of the [for] loop of [matchCandidatesToSpotify]. *)
Definition matchCandidate (candidate : Candidate) (st : PoolState) : M World PoolState :=
  let key := makeTrackKey (title candidate) (artist candidate) in
  if bool_decide (key ∈ attemptedTrackKeys st) then ret st
  else
    let attempted := {[ key ]} ∪ attemptedTrackKeys st in
    found <- findSpotifyTrackUri candidate ;;
    match withUri found with
    | Some m =>
        if bool_decide (m_uri m ∈ usedUris st)
        then ret {| st_matched := st_matched st;
                    st_unmatched := st_unmatched st;
                    usedUris := usedUris st;
                    attemptedTrackKeys := attempted |}
        else ret {| st_matched :=
                      (st_matched st ++
                         [ {| requested := candidate;
                              matched := m_matchedName m;
                              uri := m_uri m;
                              duplicated := false |} ])%list;
                    st_unmatched := st_unmatched st;
                    usedUris := {[ m_uri m ]} ∪ usedUris st;
                    attemptedTrackKeys := attempted |}
    | None =>
        ret {| st_matched := st_matched st;
               st_unmatched := (st_unmatched st ++ [candidate])%list;
               usedUris := usedUris st;
               attemptedTrackKeys := attempted |}
    end.

Fixpoint matchCandidatesToSpotify (candidates : list Candidate) (st : PoolState)
    : M World PoolState :=
  match candidates with
  | [] => ret st
  | candidate :: rest =>
      st' <- matchCandidate candidate st ;;
      matchCandidatesToSpotify rest st'
  end.

Definition emptyPool : PoolState :=
  {| st_matched := []; st_unmatched := []; usedUris := ∅; attemptedTrackKeys := ∅ |}.

Definition maxAttempts : Z := 8.

Definition matchedLength (st : PoolState) : Z := Z.of_nat (length (st_matched st)).

Definition generateCountFor (desiredCount : Z) (st : PoolState) : Z :=
  let needed := desiredCount - matchedLength st in
  Z.min 50 (Z.max (needed * 3) 8).

Definition excludedTracksFor (st : PoolState) : list Candidate :=
  take 80 (List.map requested (st_matched st) ++ st_unmatched st)%list.

(** The body of the expansion loop. *)
Definition expansionRound (description : string) (desiredCount : Z) (st : PoolState)
    : M World PoolState :=
  generated <- generateTracklist description (generateCountFor desiredCount st)
                 (excludedTracksFor st) ;;
  matchCandidatesToSpotify generated st.

(** [while (matched.length < desiredCount && attempt < maxAttempts)]; the
    loop leaves before [fuel] reaches 0 when [fuel] is at least
    [maxAttempts - attempt]. *)
Fixpoint expansionLoop (fuel : nat) (description : string) (desiredCount : Z)
    (attempt : Z) (st : PoolState) : M World PoolState :=
  match fuel with
  | O => ret st
  | S fuel' =>
      if (matchedLength st <? desiredCount) && (attempt <? maxAttempts) then
        st' <- expansionRound description desiredCount st ;;
        expansionLoop fuel' description desiredCount (attempt + 1) st'
      else ret st
  end.

Definition fallback (desiredCount : Z) (st : PoolState) : M World PoolState :=
  if matchedLength st <? desiredCount
  then matchCandidatesToSpotify EMERGENCY_FALLBACK_TRACKS st
  else ret st.

End Server.

Definition cloneOf (clone : MatchResult) : MatchResult :=
  {| requested := requested clone;
     matched := matched clone +:+ " (duplicate fill)";
     uri := uri clone;
     duplicated := true |}.

(** The inner [while (matched.length < desiredCount)] of the duplicate
    fill; every iteration appends one entry, so [fuel] at least
    [desiredCount - matched.length] is never used up. *)
Fixpoint duplicateFillLoop (fuel : nat) (base : list MatchResult) (desiredCount : Z)
    (matched : list MatchResult) (idx : nat) (duplicateFillCount : Z)
    : list MatchResult * Z :=
  match fuel with
  | O => (matched, duplicateFillCount)
  | S fuel' =>
      if Z.of_nat (length matched) <? desiredCount then
        match base !! (idx mod length base)%nat with
        | Some clone =>
            duplicateFillLoop fuel' base desiredCount
              (matched ++ [cloneOf clone])%list (idx + 1)%nat (duplicateFillCount + 1)
        | None => (matched, duplicateFillCount)
        end
      else (matched, duplicateFillCount)
  end.

Definition duplicateFill (desiredCount : Z) (matched : list MatchResult)
    : list MatchResult * Z :=
  if (Z.of_nat (length matched) <? desiredCount) && (0 <? Z.of_nat (length matched))
  then duplicateFillLoop (Z.to_nat desiredCount) matched desiredCount matched 0%nat 0
  else (matched, 0).

(** Everything of [buildMatchedTrackPool] after the fallback. *)
Definition finishPool (desiredCount : Z) (st : PoolState) : Outcome PoolResult :=
  let '(matched, duplicateFillCount) := duplicateFill desiredCount (st_matched st) in
  if Z.of_nat (length matched) <? desiredCount
  then Thrown (UnableToBuild (Z.of_nat (length matched)) desiredCount)
  else Returned {| res_matched := slice0 matched desiredCount;
                   res_unmatched := st_unmatched st;
                   duplicateFillCount := duplicateFillCount |}.

Definition liftOutcome {World A} (o : Outcome A) : M World A := fun env => (o, env).

(** [buildMatchedTrackPool] up to and including the fallback. *)
Definition gatherMatches {World} `{Collaborators World} `{Runtime}
    (description : string) (desiredCount : Z) (seedCandidates : list Candidate)
    : M World PoolState :=
  st0 <- matchCandidatesToSpotify seedCandidates emptyPool ;;
  st1 <- expansionLoop (Z.to_nat maxAttempts) description desiredCount 0 st0 ;;
  fallback desiredCount st1.

Definition buildMatchedTrackPool {World} `{Collaborators World} `{Runtime}
    (description : string) (desiredCount : Z) (seedCandidates : list Candidate)
    : M World PoolResult :=
  st <- gatherMatches description desiredCount seedCandidates ;;
  liftOutcome (finishPool desiredCount st).

(** ** Track count clamp and the callers of the engine *)

(** [Number(value)] *)
Definition toNumber `{Runtime} (value : JsVal) : JsNumber :=
  match value with
  | JUndefined => NaN
  | JNull => Fin 0
  | JBool b => Fin (if b then 1 else 0)
  | JNum n => n
  | JStr s => StringToNumber s
  | JArr _ | JObj _ => StringToNumber (toStr value)
  end.

Definition clampTrackCount `{Runtime} (value : JsVal) : JsNumber :=
  Math_min (Math_max (numberOr (toNumber value) (Fin 20)) (Fin 5)) (Fin 50).

Record PlaylistInputs := {
  in_description : string;
  in_playlistName : string;
  in_folderName : string;
  in_trackCount : JsVal;
  in_isPublic : JsVal;
  in_approvedTracks : JsVal
}.

Record PlaylistResult := {
  playlistId : string;
  playlistUrl : string;
  effectiveName : string;
  trackCountRequested : Z;
  trackCountCreated : Z;
  pl_matched : list MatchResult;
  pl_unmatched : list Candidate;
  pl_duplicateFillCount : Z
}.

(** A default parameter value: used when the argument is [undefined]. *)
Definition orDefault (v d : JsVal) : JsVal :=
  match v with JUndefined => d | _ => v end.

Definition hasRequested (t : JsVal) : bool :=
  truthy (getField (getField t "requested") "title")
  && truthy (getField (getField t "requested") "artist").

Definition seedCandidatesOf (approvedTracks : JsVal) : list Candidate :=
  match approvedTracks with
  | JArr elems =>
      List.map (fun t => {| title := toStr (getField (getField t "requested") "title");
                            artist := toStr (getField (getField t "requested") "artist") |})
               (List.filter hasRequested elems)
  | _ => []
  end.

Definition effectiveNameOf (folderName playlistName : string) : string :=
  if negb (isEmpty (trim folderName))
  then "[" +:+ trim folderName +:+ "] " +:+ trim playlistName
  else trim playlistName.

Record PreviewRow := {
  row_requested : Candidate;
  row_matched : bool;
  row_matchedName : option string
}.

Record PreviewState := {
  pv_matched : list MatchResult;
  pv_unmatched : list Candidate;
  pv_rows : list PreviewRow;
  pv_usedUris : gset string;
  pv_attemptedTrackKeys : gset string
}.

Definition emptyPreview : PreviewState :=
  {| pv_matched := []; pv_unmatched := []; pv_rows := [];
     pv_usedUris := ∅; pv_attemptedTrackKeys := ∅ |}.

Section Callers.
Context {World : Type} `{Collaborators World} `{Runtime}.

(** [for (let i = 0; i < uris.length; i += 100)]: [uris] is what is left
    from index [i] on. *)
Fixpoint addInBatches (fuel : nat) (playlist : string) (uris : list string)
    : M World unit :=
  match fuel, uris with
  | S fuel', _ :: _ =>
      _ <- callSpotify (AddItems playlist (take 100 uris)) ;;
      addInBatches fuel' playlist (drop 100 uris)
  | _, _ => ret tt
  end.

(** The seed candidates of a build: the approved tracks or, without any,
    one fresh generation. *)
Definition seedsFor (description : string) (count : Z) (approvedTracks : JsVal)
    : M World (list Candidate) :=
  let seedCandidates := seedCandidatesOf approvedTracks in
  if (length seedCandidates =? 0)%nat
  then generateTracklist description count []
  else ret seedCandidates.

(** What [createPlaylistFromInputs] does with the pool it was given. *)
Definition materialize (inputs : PlaylistInputs) (count : Z) (pool : PoolResult)
    : M World PlaylistResult :=
  let name := effectiveNameOf (in_folderName inputs) (in_playlistName inputs) in
  reply <- callSpotify
             (CreatePlaylist name (truthy (in_isPublic inputs))
                ("Generated from prompt: " +:+ String.substring 0 250 (in_description inputs))) ;;
  match reply with
  | PlaylistCreated created =>
      let uris := List.map uri (res_matched pool) in
      _ <- addInBatches (length uris) (created_id created) uris ;;
      ret {| playlistId := created_id created;
             playlistUrl := created_url created;
             effectiveName := name;
             trackCountRequested := count;
             trackCountCreated := Z.of_nat (length uris);
             pl_matched := res_matched pool;
             pl_unmatched := res_unmatched pool;
             pl_duplicateFillCount := duplicateFillCount pool |}
  | _ => throw TypeError
  end.

Definition createPlaylistFromInputs (inputs : PlaylistInputs) : M World PlaylistResult :=
  let count :=
    intValue (clampTrackCount (orDefault (in_trackCount inputs) (JNum (Fin 20)))) in
  seedCandidates <- seedsFor (in_description inputs) count
                      (orDefault (in_approvedTracks inputs) (JArr [])) ;;
  pool <- buildMatchedTrackPool (in_description inputs) count seedCandidates ;;
  materialize inputs count pool.

(** One iteration of the [for] loop of the preview handler. *)
Definition previewCandidate (candidate : Candidate) (st : PreviewState)
    : M World PreviewState :=
  let key := makeTrackKey (title candidate) (artist candidate) in
  let attempted :=
    if bool_decide (key ∈ pv_attemptedTrackKeys st) then pv_attemptedTrackKeys st
    else {[ key ]} ∪ pv_attemptedTrackKeys st in
  found <- findSpotifyTrackUri candidate ;;
  match withUri found with
  | Some m =>
      let row := {| row_requested := candidate; row_matched := true;
                    row_matchedName := Some (m_matchedName m) |} in
      if bool_decide (m_uri m ∈ pv_usedUris st)
      then ret {| pv_matched := pv_matched st;
                  pv_unmatched := pv_unmatched st;
                  pv_rows := (pv_rows st ++ [row])%list;
                  pv_usedUris := pv_usedUris st;
                  pv_attemptedTrackKeys := attempted |}
      else ret {| pv_matched :=
                    (pv_matched st ++
                       [ {| requested := candidate; matched := m_matchedName m;
                            uri := m_uri m; duplicated := false |} ])%list;
                  pv_unmatched := pv_unmatched st;
                  pv_rows := (pv_rows st ++ [row])%list;
                  pv_usedUris := {[ m_uri m ]} ∪ pv_usedUris st;
                  pv_attemptedTrackKeys := attempted |}
  | None =>
      ret {| pv_matched := pv_matched st;
             pv_unmatched := (pv_unmatched st ++ [candidate])%list;
             pv_rows := (pv_rows st ++
                           [ {| row_requested := candidate; row_matched := false;
                                row_matchedName := None |} ])%list;
             pv_usedUris := pv_usedUris st;
             pv_attemptedTrackKeys := attempted |}
  end.

Fixpoint previewCandidates (candidates : list Candidate) (st : PreviewState)
    : M World PreviewState :=
  match candidates with
  | [] => ret st
  | candidate :: rest =>
      st' <- previewCandidate candidate st ;;
      previewCandidates rest st'
  end.

(** The body of the [/api/preview-playlist] handler after its two guards. *)
Definition previewPlaylist (description : string) (trackCount : JsVal)
    : M World PreviewState :=
  let count := intValue (clampTrackCount (orDefault trackCount (JNum (Fin 20)))) in
  generatedTracks <- generateTracklist description count [] ;;
  previewCandidates generatedTracks emptyPreview.

End Callers.

(** ** The Slack command: its parser, its escape and its preview loop *)

(** [s.split(sep)] for a separator of one character. *)
Fixpoint splitChar (sep : ascii) (s : string) : list string :=
  match s with
  | EmptyString => [EmptyString]
  | String c s' =>
      if Ascii.eqb c sep
      then EmptyString :: splitChar sep s'
      else match splitChar sep s' with
           | h :: t => String c h :: t
           | [] => [String c EmptyString]
           end
  end.

(** [s.indexOf(c)]: -1 when [c] does not occur. *)
Fixpoint indexOfChar (c : ascii) (s : string) : Z :=
  match s with
  | EmptyString => -1
  | String d r =>
      if Ascii.eqb d c then 0
      else let i := indexOfChar c r in
           if i <? 0 then -1 else i + 1
  end.

Record SpotAiCommand := {
  cmd_playlistName : string;
  cmd_folderName : string;
  cmd_trackCount : JsNumber;
  cmd_isPublic : bool;
  cmd_description : string
}.

Definition commandDefaults : SpotAiCommand :=
  {| cmd_playlistName := "Autify Playlist";
     cmd_folderName := "Autify";
     cmd_trackCount := Fin 20;
     cmd_isPublic := false;
     cmd_description := "" |}.

(** One iteration of the [for] loop of [parseSpotAiCommand]. *)
Definition applyPart `{Runtime} (parsed : SpotAiCommand) (part : string) : SpotAiCommand :=
  let idx := indexOfChar "=" part in
  if idx <? 1 then parsed
  else
    let key := toLowerCase (trim (String.substring 0 (Z.to_nat idx) part)) in
    let value := trim (String.substring (Z.to_nat (idx + 1))
                         (String.length part - Z.to_nat (idx + 1)) part) in
    let parsed1 :=
      if String.eqb key "name"
      then {| cmd_playlistName := value;
              cmd_folderName := cmd_folderName parsed;
              cmd_trackCount := cmd_trackCount parsed;
              cmd_isPublic := cmd_isPublic parsed;
              cmd_description := cmd_description parsed |}
      else parsed in
    let parsed2 :=
      if String.eqb key "folder"
      then {| cmd_playlistName := cmd_playlistName parsed1;
              cmd_folderName := value;
              cmd_trackCount := cmd_trackCount parsed1;
              cmd_isPublic := cmd_isPublic parsed1;
              cmd_description := cmd_description parsed1 |}
      else parsed1 in
    let parsed3 :=
      if String.eqb key "count"
      then {| cmd_playlistName := cmd_playlistName parsed2;
              cmd_folderName := cmd_folderName parsed2;
              cmd_trackCount := clampTrackCount (JStr value);
              cmd_isPublic := cmd_isPublic parsed2;
              cmd_description := cmd_description parsed2 |}
      else parsed2 in
    let parsed4 :=
      if String.eqb key "public"
      then {| cmd_playlistName := cmd_playlistName parsed3;
              cmd_folderName := cmd_folderName parsed3;
              cmd_trackCount := cmd_trackCount parsed3;
              cmd_isPublic :=
                existsb (String.eqb (toLowerCase value)) ["1"; "true"; "yes"; "y"];
              cmd_description := cmd_description parsed3 |}
      else parsed3 in
    if String.eqb key "desc" || String.eqb key "description"
    then {| cmd_playlistName := cmd_playlistName parsed4;
            cmd_folderName := cmd_folderName parsed4;
            cmd_trackCount := cmd_trackCount parsed4;
            cmd_isPublic := cmd_isPublic parsed4;
            cmd_description := value |}
    else parsed4.

Definition commandParts (raw : string) : list string :=
  List.filter (fun p => negb (isEmpty p)) (List.map trim (splitChar ";" raw)).

Definition parseSpotAiCommand `{Runtime} (text : string) : SpotAiCommand :=
  let raw := trim text in
  if isEmpty raw then commandDefaults
  else List.fold_left applyPart (commandParts raw) commandDefaults.

(** [s.replaceAll(c, by)] for a pattern of one character. *)
Fixpoint replaceAllChar (c : ascii) (replacement : string) (s : string) : string :=
  match s with
  | EmptyString => EmptyString
  | String d r =>
      if Ascii.eqb d c then replacement +:+ replaceAllChar c replacement r
      else String d (replaceAllChar c replacement r)
  end.

Definition slackEscape (value : string) : string :=
  replaceAllChar ">" "&gt;" (replaceAllChar "<" "&lt;" (replaceAllChar "&" "&amp;" value)).

Section SlackCommand.
Context {World : Type} `{Collaborators World} `{Runtime}.

(** One iteration of the [for] loop of the [/slack/commands] handler. *)
Definition slackCandidate (candidate : Candidate) (st : PreviewState)
    : M World PreviewState :=
  let key := makeTrackKey (title candidate) (artist candidate) in
  let attempted :=
    if bool_decide (key ∈ pv_attemptedTrackKeys st) then pv_attemptedTrackKeys st
    else {[ key ]} ∪ pv_attemptedTrackKeys st in
  let missed :=
    {| pv_matched := pv_matched st;
       pv_unmatched := (pv_unmatched st ++ [candidate])%list;
       pv_rows := (pv_rows st ++
                     [ {| row_requested := candidate; row_matched := false;
                          row_matchedName := None |} ])%list;
       pv_usedUris := pv_usedUris st;
       pv_attemptedTrackKeys := attempted |} in
  found <- findSpotifyTrackUri candidate ;;
  match withUri found with
  | Some m =>
      if negb (bool_decide (m_uri m ∈ pv_usedUris st))
      then ret {| pv_matched :=
                    (pv_matched st ++
                       [ {| requested := candidate; matched := m_matchedName m;
                            uri := m_uri m; duplicated := false |} ])%list;
                  pv_unmatched := pv_unmatched st;
                  pv_rows := (pv_rows st ++
                                [ {| row_requested := candidate; row_matched := true;
                                     row_matchedName := Some (m_matchedName m) |} ])%list;
                  pv_usedUris := {[ m_uri m ]} ∪ pv_usedUris st;
                  pv_attemptedTrackKeys := attempted |}
      else ret missed
  | None => ret missed
  end.

Fixpoint slackCandidates (candidates : list Candidate) (st : PreviewState)
    : M World PreviewState :=
  match candidates with
  | [] => ret st
  | candidate :: rest =>
      st' <- slackCandidate candidate st ;;
      slackCandidates rest st'
  end.

End SlackCommand.

(** ** The escape of the web page ([public/app.js]) *)

Definition doubleQuote : ascii := "034"%char.

Definition escapeHtml (value : string) : string :=
  replaceAllChar "'" "&#39;"
    (replaceAllChar doubleQuote "&quot;"
       (replaceAllChar ">" "&gt;"
          (replaceAllChar "<" "&lt;" (replaceAllChar "&" "&amp;" value)))).

(** ** The score as the specification words it *)

(** One candidate artist name against the normalised request: exact match,
    containment in either direction, token overlap. *)
Definition scoreOneArtist (requested : string) (candidateName : string) : Q :=
  let candidate := normalizeText candidateName in
  if String.eqb candidate requested then 1%Q
  else if includes candidate requested || includes requested candidate then (92 # 100)%Q
  else overlapRatio (tokens requested) candidate.

(** The maximum over all candidate names, 0 for a request that normalises
    to the empty string. *)
Definition scoreArtist_spec (candidateArtistNames : list string) (requestedArtist : string) : Q :=
  let requested := normalizeText requestedArtist in
  if isEmpty requested then 0%Q
  else List.fold_right Qmax 0%Q (List.map (scoreOneArtist requested) candidateArtistNames).

(** The names that survive the guard [if (!candidate) continue]. *)
Definition namedArtists (itemArtists : list Artist) : list string :=
  List.filter (fun n => negb (isEmpty (normalizeText n))) (List.map artist_name itemArtists).

(** ** Notions used to state the properties *)

Definition scoreOf (requestedArtist : string) (item : Item) : Q :=
  getArtistConfidence (item_artists item) requestedArtist.

(** The first element of maximal score, by one pass from the right. *)
Fixpoint firstBest (l : list Scored) : option Scored :=
  match l with
  | [] => None
  | x :: rest =>
      match firstBest rest with
      | None => Some x
      | Some y => if Qle_bool (sc_score y) (sc_score x) then Some x else Some y
      end
  end.

Definition countOpenAI (trace : list Call) : nat :=
  length (List.filter (fun c => match c with CallOpenAI _ => true | _ => false end) trace).

Definition isSearch (c : Call) : Prop :=
  match c with CallSpotify (Search _) => True | _ => False end.

(** What a computation adds to the call log, and what it can throw: from
    every start it appends calls [t] with [T t], and throws only errors in
    [E]. *)
Definition emits {World A} (T : list Call -> Prop) (E : Error -> Prop) (m : M World A)
    : Prop :=
  forall env,
    (exists t, snd (snd (m env)) = (snd env ++ t)%list /\ T t)
    /\ (forall e, fst (m env) = Thrown e -> E e).

Definition isSpotifyError (e : Error) : Prop :=
  match e with SpotifyError _ => True | _ => False end.

Definition notUnableToBuild (e : Error) : Prop :=
  match e with UnableToBuild _ _ => False | _ => True end.

(** At most [n] generation calls, each asking for 8 to 50 tracks. *)
Definition generationsWithin (n : nat) (t : list Call) : Prop :=
  (countOpenAI t <= n)%nat
  /\ Forall (fun c => match c with
                      | CallOpenAI r => 8 <= gen_trackCount r <= 50
                      | _ => True
                      end) t.

(** What the matching loop maintains: the uris of the matched entries are
    pairwise distinct and recorded in [usedUris], and no entry is a clone. *)
Definition poolInv (st : PoolState) : Prop :=
  NoDup (List.map uri (st_matched st))
  /\ Forall (fun m => duplicated m = false /\ uri m ∈ usedUris st) (st_matched st).

(** Two entries at different positions share a uri only when one of them
    is marked [duplicated]. *)
Definition uniqueUnlessDuplicated (l : list MatchResult) : Prop :=
  forall i j a b,
    i <> j -> l !! i = Some a -> l !! j = Some b -> uri a = uri b ->
    duplicated a = true \/ duplicated b = true.

(** The order the comparator sorts by. *)
Definition byScoreDesc (a b : Scored) : Prop := (sc_score b <= sc_score a)%Q.

(** ** Notions for the normaliser, the parsers and the escapes *)

(** Every character of [s] satisfies [p]. *)
Fixpoint allChars (p : ascii -> bool) (s : string) : bool :=
  match s with
  | EmptyString => true
  | String c r => p c && allChars p r
  end.

(** The characters a normalised string is made of. *)
Definition isKeyChar (c : ascii) : bool :=
  isLowerAlpha c || isDigit c || Ascii.eqb c " ".

(** The only white space of [s] is the space character, never twice in a
    row (nor first, when [afterSpace]). *)
Fixpoint singleSpaced (afterSpace : bool) (s : string) : bool :=
  match s with
  | EmptyString => true
  | String c r =>
      if isWhiteSpace c
      then negb afterSpace && Ascii.eqb c " " && singleSpaced true r
      else singleSpaced false r
  end.

(** Any character but the brace. *)
Definition notOpenBrace (c : ascii) : bool := negb (Ascii.eqb c "{").
Definition notCloseBrace (c : ascii) : bool := negb (Ascii.eqb c "}").

(** The entity a character is written as, in one pass. *)
Definition htmlEntity (c : ascii) : string :=
  if Ascii.eqb c "&" then "&amp;"
  else if Ascii.eqb c "<" then "&lt;"
  else if Ascii.eqb c ">" then "&gt;"
  else if Ascii.eqb c doubleQuote then "&quot;"
  else if Ascii.eqb c "'" then "&#39;"
  else String c EmptyString.

Definition slackEntity (c : ascii) : string :=
  if Ascii.eqb c "&" then "&amp;"
  else if Ascii.eqb c "<" then "&lt;"
  else if Ascii.eqb c ">" then "&gt;"
  else String c EmptyString.

(** Each character replaced by a string. *)
Fixpoint concatMap (f : ascii -> string) (s : string) : string :=
  match s with
  | EmptyString => EmptyString
  | String c r => f c +:+ concatMap f r
  end.

(** The characters the escapes must not let through. *)
Definition isMarkup (c : ascii) : bool := Ascii.eqb c "<" || Ascii.eqb c ">".
Definition isHtmlSpecial (c : ascii) : bool :=
  Ascii.eqb c "<" || Ascii.eqb c ">" || Ascii.eqb c doubleQuote || Ascii.eqb c "'".

(** ** Notions for the matcher, the engine and its callers *)

(** What every parsed command satisfies. *)
Definition wellFormedCommand (c : SpotAiCommand) : Prop :=
  (exists n, cmd_trackCount c = Fin n /\ 5 <= n <= 50)
  /\ trim (cmd_playlistName c) = cmd_playlistName c
  /\ trim (cmd_folderName c) = cmd_folderName c
  /\ trim (cmd_description c) = cmd_description c.

(** The two queries of [findSpotifyTrackUri]. *)
Definition structuredQuery (c : Candidate) : string :=
  "track:" +:+ title c +:+ " artist:" +:+ artist c.

Definition looseQuery (c : Candidate) : string := title c +:+ " " +:+ artist c.

(** The track key of a candidate. *)
Definition keyOf (c : Candidate) : string := makeTrackKey (title c) (artist c).

(** The candidates the pool has an opinion on: the requested candidates of
    the matches, then the unmatched ones. *)
Definition settled (st : PoolState) : list Candidate :=
  (List.map requested (st_matched st) ++ st_unmatched st)%list.

(** The books of the matching loop: [usedUris] holds exactly the uris of
    the matches, no two settled candidates share a key, and every settled
    key was attempted. *)
Definition poolBooks (st : PoolState) : Prop :=
  usedUris st = list_to_set (List.map uri (st_matched st))
  /\ NoDup (List.map keyOf (settled st))
  /\ Forall (fun c => keyOf c ∈ attemptedTrackKeys st) (settled st).

(** The number of searches in a call log. *)
Definition countSearches (trace : list Call) : nat :=
  length (List.filter (fun c => match c with CallSpotify (Search _) => true | _ => false end)
            trace).

(** A computation that adds at most [n] searches to the call log, however
    it ends. *)
Definition searchesAtMost {World A} (n : nat) (m : M World A) : Prop :=
  forall env, (countSearches (snd (snd (m env))) <= countSearches (snd env) + n)%nat.

(** The calls that change nothing at the catalogue: searches and
    generations. *)
Definition readsOnly (c : Call) : Prop :=
  match c with
  | CallSpotify (Search _) | CallOpenAI _ => True
  | _ => False
  end.

(** The calls that post the given batches to a playlist. *)
Definition addItemsCalls (playlist : string) (batches : list (list string)) : list Call :=
  List.map (fun batch => CallSpotify (AddItems playlist batch)) batches.

(** The rows marked unmatched, and those marked matched. *)
Definition missedRows (rows : list PreviewRow) : list PreviewRow :=
  List.filter (fun row => negb (row_matched row)) rows.

Definition matchedRows (rows : list PreviewRow) : list PreviewRow :=
  List.filter row_matched rows.

(** The uris in use are those of the matched entries, each once. *)
Definition previewBooks (st : PreviewState) : Prop :=
  pv_usedUris st = list_to_set (List.map uri (pv_matched st))
  /\ NoDup (List.map uri (pv_matched st)).

(** A row says [matched] exactly when it carries a matched name. *)
Definition rowConsistent (row : PreviewRow) : Prop :=
  match row_matchedName row with
  | Some _ => row_matched row = true
  | None => row_matched row = false
  end.

(** The preview's books and the engine's hold the same entries. *)
Definition sameBooks (pv : PreviewState) (st : PoolState) : Prop :=
  pv_matched pv = st_matched st
  /\ pv_unmatched pv = st_unmatched st
  /\ pv_usedUris pv = usedUris st
  /\ pv_attemptedTrackKeys pv = attemptedTrackKeys st.

(** Two runs that end the same way, in the same world and with the same
    call log, with results related by [R]. *)
Definition sameEnd {World A B} (R : A -> B -> Prop)
    (x : Outcome A * (World * list Call)) (y : Outcome B * (World * list Call)) : Prop :=
  snd x = snd y
  /\ match fst x, fst y with
     | Returned a, Returned b => R a b
     | Thrown e1, Thrown e2 => e1 = e2
     | _, _ => False
     end.

(** ** Collaborators for the examples *)

Definition track (u n a : string) : Item :=
  {| item_uri := u; item_name := n; item_artists := [ {| artist_name := a |} ] |}.

(** A catalogue that knows two tracks, under their structured query. *)
Definition smallCatalogue (query : string) : list Item :=
  if String.eqb query "track:Dreams artist:Fleetwood Mac"
  then [ track "spotify:track:1" "Dreams" "Fleetwood Mac" ]
  else if String.eqb query "track:Tame artist:STRFKR"
  then [ track "spotify:track:2" "Tame" "STRFKR" ]
  else [].

Definition catalogueService (catalogue : string -> list Item) (c : SpotifyCall) (w : nat)
    : (SpotifyFailure + SpotifyReply) * nat :=
  match c with
  | Search query => (inr (TrackItems (catalogue query)), w)
  | CreatePlaylist _ _ _ =>
      (inr (PlaylistCreated {| created_id := "p1";
                               created_url := "https://open.spotify.com/playlist/p1" |}), w)
  | AddItems _ _ => (inr NoContent, w)
  end.

(** A generator that always answers [content]; the world counts its calls. *)
Definition steadyGenerator (content : string) (_ : GenRequest) (w : nat)
    : option string * nat :=
  (Some content, S w).

Definition brokenGenerator (_ : GenRequest) (w : nat) : option string * nat :=
  (None, S w).

Definition jsTrack (t a : string) : JsVal := JObj [("title", JStr t); ("artist", JStr a)].

(** A parser that knows three documents by name. *)
Definition tableRuntime : Runtime :=
  {| JSON_parse := fun text =>
       if String.eqb text "one unknown track"
       then Some (JObj [("tracks", JArr [ jsTrack "Nope" "Nobody" ])])
       else if String.eqb text "one track without artist"
       then Some (JObj [("tracks", JArr [ JObj [("title", JStr "Dreams")] ])])
       else if String.eqb text "two spellings"
       then Some (JObj [("tracks", JArr [ jsTrack "Dreams" "Fleetwood Mac";
                                          jsTrack " dreams! " "FLEETWOOD MAC" ])])
       else None;
     StringToNumber := fun _ => NaN |}.

Definition scarceWorld : Collaborators nat :=
  {| spotifyRequest := catalogueService smallCatalogue;
     openaiComplete := steadyGenerator "one unknown track" |}.

Definition brokenWorld : Collaborators nat :=
  {| spotifyRequest := catalogueService smallCatalogue;
     openaiComplete := brokenGenerator |}.

Definition repeatingWorld : Collaborators nat :=
  {| spotifyRequest := catalogueService smallCatalogue;
     openaiComplete := steadyGenerator "two spellings" |}.

(** Nothing resolves: an empty catalogue. *)
Definition barrenWorld : Collaborators nat :=
  {| spotifyRequest := catalogueService (fun _ => []);
     openaiComplete := steadyGenerator "one unknown track" |}.


Definition dreams : Candidate := {| title := "Dreams"; artist := "Fleetwood Mac" |}.
Definition dreamsAgain : Candidate := {| title := "dreams!"; artist := "FLEETWOOD MAC" |}.
Definition tame : Candidate := {| title := "Tame"; artist := "STRFKR" |}.

Definition start : nat * list Call := (0%nat, []).

(** A host that reads one numeral. *)
Definition demoRuntimeNumbers : Runtime :=
  {| JSON_parse := fun _ => None;
     StringToNumber := fun s => if String.eqb s "500" then Fin 500 else NaN |}.

(** An approved track as the page sends it back, and a request that
    approves two. *)
Definition approved (c : Candidate) : JsVal :=
  JObj [("requested", jsTrack (title c) (artist c))].

Definition demoInputs : PlaylistInputs :=
  {| in_description := "d"; in_playlistName := " Mix "; in_folderName := "";
     in_trackCount := JNum (Fin 5); in_isPublic := JUndefined;
     in_approvedTracks := JArr [approved dreams; approved tame] |}.

(** ** Proof steps over the characters *)

Ltac eqb_cases c :=
  destruct (Ascii.eqb c "&") eqn:?; destruct (Ascii.eqb c "<") eqn:?;
  destruct (Ascii.eqb c ">") eqn:?; destruct (Ascii.eqb c doubleQuote) eqn:?;
  destruct (Ascii.eqb c "'") eqn:?;
  repeat match goal with
         | H : Ascii.eqb _ _ = true |- _ => apply Ascii.eqb_eq in H; subst
         end;
  try discriminate.

Ltac every_char c :=
  destruct c as [b0 b1 b2 b3 b4 b5 b6 b7];
  destruct b0, b1, b2, b3, b4, b5, b6, b7.

(** * Properties *)

(** ** Normalised strings *)

Lemma trimStart_head s c r : trimStart s = String c r -> isWhiteSpace c = false.
Proof.
  induction s as [|a s IH]; simpl; [discriminate|].
  destruct (isWhiteSpace a) eqn:Ha; [exact IH|].
  intros E. injection E as -> _. exact Ha.
Qed.

Lemma trimEnd_head s c r : trimEnd s = String c r -> exists r', s = String c r'.
Proof.
  destruct s as [|a s]; simpl; [discriminate|].
  destruct (trimEnd s).
  - destruct (isWhiteSpace a); [discriminate|].
    intros E. injection E as -> _. eauto.
  - intros E. injection E as -> _. eauto.
Qed.

Lemma normalizeText_head value c r :
  normalizeText value = String c r -> isWhiteSpace c = false.
Proof.
  unfold normalizeText, trim. intros E.
  destruct (trimEnd_head _ _ _ E) as [r' E'].
  exact (trimStart_head _ _ _ E').
Qed.

Lemma tokens_head c r : Ascii.eqb c " " = false -> tokens (String c r) <> [].
Proof.
  intros Hc. unfold tokens. simpl. rewrite Hc.
  destruct (splitSpace r); simpl; discriminate.
Qed.

Lemma normalizeText_tokens value :
  isEmpty (normalizeText value) = false -> tokens (normalizeText value) <> [].
Proof.
  destruct (normalizeText value) as [|c r] eqn:E; [discriminate|]. intros _.
  apply tokens_head. pose proof (normalizeText_head _ _ _ E) as Hc.
  destruct (Ascii.eqb c " ") eqn:Hs; [|reflexivity].
  apply Ascii.eqb_eq in Hs. subst c. discriminate Hc.
Qed.

(** ** The artist confidence score *)

Lemma filter_length_le {A} (f : A -> bool) (l : list A) :
  (length (List.filter f l) <= length l)%nat.
Proof. induction l as [|a l IH]; simpl; [lia|]. destruct (f a); simpl; lia. Qed.

Lemma overlapRatio_bounds requestedTokens candidate :
  (0 <= overlapRatio requestedTokens candidate <= 1)%Q.
Proof.
  unfold overlapRatio.
  set (f := fun t : string => bool_decide (t ∈ (list_to_set (tokens candidate) : gset string))).
  pose proof (filter_length_le f requestedTokens) as Hle.
  unfold Qle; simpl. split; [lia|].
  destruct (length requestedTokens) as [|n] eqn:E.
  - assert (length (List.filter f requestedTokens) = 0%nat) by lia. lia.
  - rewrite Z.mul_1_r. lia.
Qed.

Lemma scoreOneArtist_bounds requested name :
  (0 <= scoreOneArtist requested name <= 1)%Q.
Proof.
  unfold scoreOneArtist.
  destruct (String.eqb _ _); [split; discriminate|].
  destruct (_ || _); [split; discriminate|].
  apply overlapRatio_bounds.
Qed.

Lemma maxScore_bounds requested names :
  (0 <= List.fold_right Qmax 0 (List.map (scoreOneArtist requested) names) <= 1)%Q.
Proof.
  induction names as [|n names [IH0 IH1]]; simpl; [split; discriminate|].
  destruct (scoreOneArtist_bounds requested n) as [H0 H1]. split.
  - apply Q.max_le_iff. now left.
  - now apply Q.max_lub.
Qed.

Lemma namedArtists_cons a rest :
  namedArtists (a :: rest) =
  if isEmpty (normalizeText (artist_name a)) then namedArtists rest
  else artist_name a :: namedArtists rest.
Proof. unfold namedArtists. simpl. now destruct (isEmpty _). Qed.

(** The loop computes the maximum of its start value and the scores of the
    artists it does not skip. *)
Lemma confidenceLoop_max requested itemArtists : forall best,
  (0 <= best <= 1)%Q ->
  (confidenceLoop requested (tokens requested) itemArtists best ==
   Qmax best (List.fold_right Qmax 0
                (List.map (scoreOneArtist requested) (namedArtists itemArtists))))%Q.
Proof.
  induction itemArtists as [|a rest IH]; intros best [Hb0 Hb1].
  - simpl. symmetry. now apply Q.max_l.
  - rewrite namedArtists_cons. simpl.
    destruct (isEmpty (normalizeText (artist_name a))) eqn:Hempty; [now apply IH|].
    simpl. pose proof (maxScore_bounds requested (namedArtists rest)) as [HF0 HF1].
    unfold scoreOneArtist at 1.
    destruct (String.eqb _ requested) eqn:Heq.
    + rewrite (Q.max_l 1) by exact HF1. symmetry. now apply Q.max_r.
    + destruct (_ || _) eqn:Hinc.
      * rewrite IH, Q.max_assoc; [reflexivity|]. split.
        -- apply Q.max_le_iff. now left.
        -- apply Q.max_lub; [exact Hb1|discriminate].
      * destruct (overlapRatio_bounds (tokens requested) (normalizeText (artist_name a))).
        rewrite IH, Q.max_assoc; [reflexivity|]. split.
        -- apply Q.max_le_iff. now left.
        -- now apply Q.max_lub.
Qed.

Lemma getArtistConfidence_max itemArtists requestedArtist :
  (getArtistConfidence itemArtists requestedArtist ==
   scoreArtist_spec (namedArtists itemArtists) requestedArtist)%Q.
Proof.
  unfold getArtistConfidence, scoreArtist_spec.
  destruct (isEmpty (normalizeText requestedArtist)) eqn:Hreq; [reflexivity|].
  pose proof (normalizeText_tokens _ Hreq) as Htok.
  destruct (tokens (normalizeText requestedArtist)) eqn:E; [contradiction|].
  simpl Nat.eqb. cbv iota. rewrite <- E, confidenceLoop_max by (split; discriminate).
  apply Q.max_r. apply maxScore_bounds.
Qed.

(** C8, as the code has it: the score is the maximum, over the candidate
    artist names that do not normalise to the empty string, of 1 for an
    exact normalised match, 0.92 for containment in either direction and
    the token-overlap ratio otherwise; it lies in [0,1], is 0 when the
    requested artist normalises to the empty string, depends on the
    requested artist and on the names only through their normalised forms,
    and [getArtistConfidence(["The Weeknd"], "the weeknd!!")] is 1. *)
Theorem getArtistConfidence_characterised :
  (forall itemArtists requestedArtist,
      (getArtistConfidence itemArtists requestedArtist ==
       scoreArtist_spec (namedArtists itemArtists) requestedArtist)%Q
      /\ (0 <= getArtistConfidence itemArtists requestedArtist <= 1)%Q)
  /\ (forall itemArtists requestedArtist,
         normalizeText requestedArtist = EmptyString ->
         getArtistConfidence itemArtists requestedArtist = 0%Q)
  /\ (forall itemArtists itemArtists' requestedArtist requestedArtist',
         normalizeText requestedArtist = normalizeText requestedArtist' ->
         List.map (fun a => normalizeText (artist_name a)) itemArtists =
         List.map (fun a => normalizeText (artist_name a)) itemArtists' ->
         getArtistConfidence itemArtists requestedArtist =
         getArtistConfidence itemArtists' requestedArtist')
  /\ getArtistConfidence [ {| artist_name := "The Weeknd" |} ] "the weeknd!!" = 1%Q.
Proof.
  split; [|split; [|split]].
  - intros itemArtists requestedArtist. split; [apply getArtistConfidence_max|].
    rewrite getArtistConfidence_max. unfold scoreArtist_spec.
    destruct (isEmpty _); [split; discriminate|apply maxScore_bounds].
  - intros itemArtists requestedArtist E. unfold getArtistConfidence. now rewrite E.
  - intros itemArtists itemArtists' requestedArtist requestedArtist' Hreq Hnames.
    unfold getArtistConfidence. rewrite <- Hreq.
    destruct (isEmpty _); [reflexivity|]. destruct (_ =? _)%nat; [reflexivity|].
    generalize 0%Q. revert itemArtists' Hnames.
    induction itemArtists as [|a rest IH]; intros [|a' rest'] Hnames best;
      try discriminate; [reflexivity|].
    simpl in Hnames. injection Hnames as Ha Hrest. simpl. rewrite <- Ha.
    destruct (isEmpty _); [now apply IH|].
    destruct (String.eqb _ _); [reflexivity|].
    destruct (_ || _); now apply IH.
  - vm_compute. reflexivity.
Qed.

(** The score worded by the specification counts a candidate name that
    normalises to the empty string as contained in the request (0.92);
    the code skips it. *)
Lemma getArtistConfidence_skips_blank_names :
  ~ (getArtistConfidence [ {| artist_name := "!!!" |} ] "abc" ==
     scoreArtist_spec [ "!!!" ] "abc")%Q.
Proof. vm_compute. discriminate. Qed.

(** ** The best search result *)

Lemma Qle_bool_false x y : Qle_bool x y = false -> (y < x)%Q.
Proof.
  intros E. apply Qnot_le_lt. intros Hle.
  apply Qle_bool_iff in Hle. congruence.
Qed.

Lemma insertByScore_perm x l : Permutation (x :: l) (insertByScore x l).
Proof.
  induction l as [|y ys IH]; simpl; [reflexivity|].
  destruct (Qle_bool _ _); [reflexivity|].
  rewrite perm_swap. now apply perm_skip.
Qed.

Lemma sortByScore_perm l : Permutation l (sortByScore l).
Proof.
  induction l as [|x l IH]; simpl; [reflexivity|].
  rewrite <- insertByScore_perm. now apply perm_skip.
Qed.

Lemma insertByScore_sorted x l :
  Sorted byScoreDesc l -> Sorted byScoreDesc (insertByScore x l).
Proof.
  induction 1 as [|y ys Hs IH Hhd]; simpl; [repeat constructor|].
  destruct (Qle_bool (sc_score y) (sc_score x)) eqn:E.
  - constructor; [now constructor|]. constructor. now apply Qle_bool_iff.
  - constructor; [exact IH|].
    apply Qle_bool_false, Qlt_le_weak in E.
    destruct Hhd as [|z zs Hz]; simpl; [now constructor|].
    destruct (Qle_bool _ _); now constructor.
Qed.

Lemma sortByScore_sorted l : Sorted byScoreDesc (sortByScore l).
Proof.
  induction l as [|x l IH]; simpl; [constructor|]. now apply insertByScore_sorted.
Qed.

(** Stability shows at the head: the sorted array starts with the first
    element of maximal score. *)
Lemma sortByScore_head l : head (sortByScore l) = firstBest l.
Proof.
  induction l as [|x l IH]; simpl; [reflexivity|].
  rewrite <- IH. destruct (sortByScore l) as [|y ys]; simpl; [reflexivity|].
  now destruct (Qle_bool _ _).
Qed.

Lemma firstBest_None l : firstBest l = None -> l = [].
Proof.
  destruct l as [|x l]; simpl; [reflexivity|].
  destruct (firstBest l); [destruct (Qle_bool _ _)|]; discriminate.
Qed.

Lemma firstBest_spec l : forall b,
  firstBest l = Some b ->
  exists before after,
    l = (before ++ b :: after)%list
    /\ (forall x, In x l -> (sc_score x <= sc_score b)%Q)
    /\ (forall x, In x before -> (sc_score x < sc_score b)%Q).
Proof.
  induction l as [|x l IH]; intros b; simpl; [discriminate|].
  destruct (firstBest l) as [y|] eqn:Hl.
  - destruct (IH y eq_refl) as (bf & af & -> & Hall & Hbf).
    destruct (Qle_bool (sc_score y) (sc_score x)) eqn:E; intros [= <-].
    + apply Qle_bool_iff in E. exists [], (bf ++ y :: af)%list.
      split; [reflexivity|]. split; [|intros ? []].
      intros z [<-|Hz]; [apply Qle_refl|].
      eapply Qle_trans; [now apply Hall|exact E].
    + apply Qle_bool_false in E. exists (x :: bf), af.
      split; [reflexivity|]. split.
      * intros z [<-|Hz]; [now apply Qlt_le_weak|now apply Hall].
      * intros z [<-|Hz]; [exact E|now apply Hbf].
  - intros [= <-]. apply firstBest_None in Hl. subst l.
    exists [], []. split; [reflexivity|]. split; [|intros ? []].
    intros z [<-|[]]. apply Qle_refl.
Qed.

(** C7: [pickBestTrackCandidate] returns an item only when that item scores
    at least 0.8, it is then a top-scoring item and the first of them in
    the order of the search results; it returns [null] exactly when every
    item (if any) scores below 0.8. *)
Theorem pickBestTrackCandidate_first_best (items : list Item) (requestedArtist : string) :
  match pickBestTrackCandidate items requestedArtist with
  | Some best =>
      (8 # 10 <= scoreOf requestedArtist best)%Q
      /\ exists before after,
          items = (before ++ best :: after)%list
          /\ (forall x, In x items ->
                        (scoreOf requestedArtist x <= scoreOf requestedArtist best)%Q)
          /\ (forall x, In x before ->
                        (scoreOf requestedArtist x < scoreOf requestedArtist best)%Q)
  | None =>
      forall x, In x items -> (scoreOf requestedArtist x < 8 # 10)%Q
  end.
Proof.
  unfold pickBestTrackCandidate.
  destruct items as [|i0 rest] eqn:Hitems; [intros ? []|]. rewrite <- Hitems. clear Hitems.
  pose proof (sortByScore_head (scoreItems items requestedArtist)) as Hhead.
  destruct (sortByScore (scoreItems items requestedArtist)) as [|best tl] eqn:Hsorted.
  - symmetry in Hhead. apply firstBest_None in Hhead.
    destruct items; [intros ? []|discriminate].
  - simpl in Hhead. symmetry in Hhead.
    destruct (firstBest_spec _ _ Hhead) as (bf & af & Hsplit & Hall & Hbf).
    unfold scoreItems in Hsplit.
    apply map_eq_app in Hsplit as (ibf & irest & -> & Hmbf & Hrest).
    apply map_eq_cons in Hrest as (it & iaf & -> & Hit & Hmaf).
    assert (Hle : forall x, In x (ibf ++ it :: iaf)%list ->
                            (scoreOf requestedArtist x <= sc_score best)%Q).
    { intros x Hx. apply (Hall {| sc_item := x; sc_score := scoreOf requestedArtist x |}).
      apply (in_map (fun item => {| sc_item := item;
                                    sc_score := getArtistConfidence (item_artists item)
                                                  requestedArtist |})) in Hx.
      exact Hx. }
    assert (Hsc : sc_score best = scoreOf requestedArtist it) by (now rewrite <- Hit).
    assert (Hitem : sc_item best = it) by (now rewrite <- Hit).
    destruct (Qle_bool (8 # 10) (sc_score best)) eqn:Hthr; simpl.
    + rewrite Hitem. split; [apply Qle_bool_iff in Hthr; now rewrite <- Hsc|].
      exists ibf, iaf. split; [reflexivity|]. split.
      * intros x Hx. rewrite <- Hsc. now apply Hle.
      * intros x Hx. rewrite <- Hsc.
        apply (Hbf {| sc_item := x; sc_score := scoreOf requestedArtist x |}).
        rewrite <- Hmbf.
        exact (in_map (fun item => {| sc_item := item;
                                      sc_score := getArtistConfidence (item_artists item)
                                                    requestedArtist |}) _ _ Hx).
    + intros x Hx. apply Qle_bool_false in Hthr.
      eapply Qle_lt_trans; [now apply Hle|exact Hthr].
Qed.

(** ** The track count clamp *)

Lemma clampTrackCount_finite `{Runtime} (value : JsVal) :
  exists n, clampTrackCount value = Fin n /\ 5 <= n <= 50.
Proof.
  unfold clampTrackCount. destruct (toNumber value) as [| | |z]; simpl.
  - exists 20. split; [reflexivity|lia].
  - exists 50. split; [reflexivity|lia].
  - exists 5. split; [reflexivity|lia].
  - destruct (z =? 0); simpl.
    + exists 20. split; [reflexivity|lia].
    + exists (Z.min (Z.max z 5) 50). split; [reflexivity|lia].
Qed.

(** C10: [clampTrackCount] returns a number between 5 and 50 for every
    input; an input whose numeric value is [NaN] (not a number, missing) or
    0 gives the clamp of the default 20; and [createPlaylistFromInputs],
    the only caller of [buildMatchedTrackPool], passes it the clamped
    count, which lies between 5 and 50 and so is never 0. *)
Theorem clampTrackCount_range `{Runtime} :
  (forall value, exists n, clampTrackCount value = Fin n /\ 5 <= n <= 50)
  /\ (forall value, toNumber value = NaN \/ toNumber value = Fin 0 ->
                    clampTrackCount value = Fin 20)
  /\ clampTrackCount JUndefined = Fin 20
  /\ clampTrackCount (JNum (Fin 0)) = Fin 20
  /\ (forall (World : Type) (C : Collaborators World) (inputs : PlaylistInputs),
        exists count,
          5 <= count <= 50 /\ count <> 0
          /\ createPlaylistFromInputs inputs =
             (seedCandidates <- seedsFor (in_description inputs) count
                                  (orDefault (in_approvedTracks inputs) (JArr [])) ;;
              pool <- buildMatchedTrackPool (in_description inputs) count seedCandidates ;;
              materialize inputs count pool)).
Proof.
  split; [exact clampTrackCount_finite|].
  split; [intros value [E|E]; unfold clampTrackCount; now rewrite E|].
  split; [reflexivity|]. split; [reflexivity|].
  intros World C inputs.
  destruct (clampTrackCount_finite (orDefault (in_trackCount inputs) (JNum (Fin 20))))
    as (n & En & Hn).
  exists n. split; [exact Hn|]. split; [lia|].
  unfold createPlaylistFromInputs. now rewrite En.
Qed.

(** ** Duplicate fill *)

Lemma duplicateFillLoop_clones (base : list MatchResult) (desiredCount : Z) :
  base <> [] ->
  forall fuel matched idx count,
    (Z.to_nat (desiredCount - Z.of_nat (length matched)) <= fuel)%nat ->
    duplicateFillLoop fuel base desiredCount matched idx count =
    ((matched ++
        omap (fun k => cloneOf <$> base !! (k mod length base)%nat)
             (seq idx (Z.to_nat (desiredCount - Z.of_nat (length matched)))))%list,
     count + Z.of_nat (Z.to_nat (desiredCount - Z.of_nat (length matched)))).
Proof.
  intros Hbase. induction fuel as [|fuel IH]; intros matched idx count Hfuel.
  - assert (E : Z.to_nat (desiredCount - Z.of_nat (length matched)) = 0%nat) by lia.
    rewrite E. simpl. now rewrite app_nil_r, Z.add_0_r.
  - simpl. destruct (Z.of_nat (length matched) <? desiredCount) eqn:Hlt.
    + apply Z.ltb_lt in Hlt.
      assert (Hmod : (idx mod length base < length base)%nat).
      { apply Nat.mod_upper_bound. destruct base; [contradiction|simpl; lia]. }
      destruct (lookup_lt_is_Some_2 base _ Hmod) as [clone Hclone].
      rewrite Hclone.
      assert (Hlen : Z.of_nat (length (matched ++ [cloneOf clone])) =
                     Z.of_nat (length matched) + 1).
      { rewrite length_app. simpl. lia. }
      rewrite IH by lia. rewrite Hlen.
      assert (E : Z.to_nat (desiredCount - Z.of_nat (length matched)) =
                  S (Z.to_nat (desiredCount - (Z.of_nat (length matched) + 1)))) by lia.
      rewrite E. simpl. rewrite Hclone. simpl.
      rewrite <- app_assoc. simpl. rewrite Nat.add_1_r. f_equal. lia.
    + apply Z.ltb_ge in Hlt.
      assert (E : Z.to_nat (desiredCount - Z.of_nat (length matched)) = 0%nat) by lia.
      rewrite E. simpl. now rewrite app_nil_r, Z.add_0_r.
Qed.

Lemma roundRobin_lookup (base : list MatchResult) : base <> [] ->
  forall n idx k, (k < n)%nat ->
    omap (fun k => cloneOf <$> base !! (k mod length base)%nat) (seq idx n) !! k =
    cloneOf <$> base !! ((idx + k) mod length base)%nat.
Proof.
  intros Hbase. induction n as [|n IH]; intros idx k Hk; [lia|].
  assert (Hmod : (idx mod length base < length base)%nat).
  { apply Nat.mod_upper_bound. destruct base; [contradiction|simpl; lia]. }
  destruct (lookup_lt_is_Some_2 base _ Hmod) as [b Hb].
  simpl. rewrite Hb. simpl. destruct k as [|k]; simpl.
  - now rewrite Nat.add_0_r, Hb.
  - rewrite IH by lia. do 3 f_equal. lia.
Qed.

Lemma roundRobin_length (base : list MatchResult) : base <> [] ->
  forall n idx,
    length (omap (fun k => cloneOf <$> base !! (k mod length base)%nat) (seq idx n)) = n.
Proof.
  intros Hbase. induction n as [|n IH]; intros idx; [reflexivity|].
  assert (Hmod : (idx mod length base < length base)%nat).
  { apply Nat.mod_upper_bound. destruct base; [contradiction|simpl; lia]. }
  destruct (lookup_lt_is_Some_2 base _ Hmod) as [b Hb].
  simpl. rewrite Hb. simpl. now rewrite IH.
Qed.

Lemma slice0_all {A} (l : list A) : slice0 l (Z.of_nat (length l)) = l.
Proof.
  unfold slice0. destruct (Z.ltb_spec (Z.of_nat (length l)) 0); [lia|].
  rewrite Nat2Z.id. apply firstn_all.
Qed.

(** The fill, when it runs: round-robin clones up to the desired length. *)
Lemma finishPool_fill (desiredCount : Z) (st : PoolState) :
  (0 < length (st_matched st))%nat ->
  Z.of_nat (length (st_matched st)) < desiredCount ->
  exists clones,
    finishPool desiredCount st =
      Returned {| res_matched := (st_matched st ++ clones)%list;
                  res_unmatched := st_unmatched st;
                  duplicateFillCount := Z.of_nat (length clones) |}
    /\ Z.of_nat (length (st_matched st ++ clones)) = desiredCount
    /\ forall k, (k < length clones)%nat ->
         exists b,
           st_matched st !! (k mod length (st_matched st))%nat = Some b
           /\ clones !! k = Some (cloneOf b)
           /\ duplicated (cloneOf b) = true
           /\ matched (cloneOf b) = matched b +:+ " (duplicate fill)"
           /\ uri (cloneOf b) = uri b
           /\ requested (cloneOf b) = requested b.
Proof.
  intros Hpos Hshort. set (base := st_matched st) in *.
  assert (Hbase : base <> []) by (destruct base; [simpl in Hpos; lia|discriminate]).
  set (n := Z.to_nat (desiredCount - Z.of_nat (length base))).
  exists (omap (fun k => cloneOf <$> base !! (k mod length base)%nat) (seq 0 n)).
  assert (Hlen : Z.of_nat (length (base ++
             omap (fun k => cloneOf <$> base !! (k mod length base)%nat) (seq 0 n))) =
                 desiredCount).
  { rewrite length_app, roundRobin_length by exact Hbase. lia. }
  split; [|split; [exact Hlen|]].
  - unfold finishPool, duplicateFill. fold base.
    replace (Z.of_nat (length base) <? desiredCount) with true by (symmetry; lia).
    replace (0 <? Z.of_nat (length base)) with true by (symmetry; lia).
    simpl andb. cbv iota.
    rewrite duplicateFillLoop_clones by (exact Hbase || lia). fold n.
    rewrite Hlen, Z.ltb_irrefl. rewrite <- Hlen at 1. rewrite slice0_all.
    rewrite roundRobin_length by exact Hbase. reflexivity.
  - intros k Hk. rewrite roundRobin_length in Hk by exact Hbase.
    assert (Hmod : (k mod length base < length base)%nat).
    { apply Nat.mod_upper_bound. lia. }
    destruct (lookup_lt_is_Some_2 base _ Hmod) as [b Hb].
    exists b. split; [exact Hb|]. split; [|repeat split].
    rewrite roundRobin_lookup by (exact Hbase || exact Hk). simpl. now rewrite Hb.
Qed.

(** ** The effect monad *)

Section MonadFacts.
Context {World : Type}.

Lemma bind_Returned {A B} (m : M World A) (k : A -> M World B) env b env' :
  bind m k env = (Returned b, env') ->
  exists a env1, m env = (Returned a, env1) /\ k a env1 = (Returned b, env').
Proof.
  unfold bind. destruct (m env) as [[a|e] env1]; [eauto|discriminate].
Qed.

Lemma bind_Thrown {A B} (m : M World A) (k : A -> M World B) env e env' :
  bind m k env = (Thrown e, env') ->
  m env = (Thrown e, env')
  \/ exists a env1, m env = (Returned a, env1) /\ k a env1 = (Thrown e, env').
Proof.
  unfold bind. destruct (m env) as [[a|e1] env1]; [eauto|].
  intros [= -> ->]. now left.
Qed.

Lemma bind_throws {A B} (m : M World A) (k : A -> M World B) env e env' :
  m env = (Thrown e, env') -> bind m k env = (Thrown e, env').
Proof. unfold bind. now intros ->. Qed.

Lemma bind_returns {A B} (m : M World A) (k : A -> M World B) env a env1 :
  m env = (Returned a, env1) -> bind m k env = k a env1.
Proof. unfold bind. now intros ->. Qed.

Lemma emits_ret {A} (T : list Call -> Prop) E (a : A) :
  T [] -> emits T E (@ret World A a).
Proof.
  intros HT env. simpl. split; [|discriminate].
  exists []. now rewrite app_nil_r.
Qed.

Lemma emits_throw {A} (T : list Call -> Prop) (E : Error -> Prop) e :
  T [] -> E e -> emits T E (@throw World A e).
Proof.
  intros HT HE env. simpl. split; [|now intros ? [= <-]].
  exists []. now rewrite app_nil_r.
Qed.

Lemma emits_bind {A B} (T1 T2 T : list Call -> Prop) E
    (m : M World A) (k : A -> M World B) :
  emits T1 E m -> (forall a, emits T2 E (k a)) ->
  (forall t1, T1 t1 -> T t1) ->
  (forall t1 t2, T1 t1 -> T2 t2 -> T (t1 ++ t2)%list) ->
  emits T E (bind m k).
Proof.
  intros Hm Hk Hleft Happ env. unfold bind.
  destruct (Hm env) as [(t1 & Ht1 & HT1) He1].
  destruct (m env) as [[a|e1] env1]; simpl in *.
  - destruct (Hk a env1) as [(t2 & Ht2 & HT2) He2]. split; [|exact He2].
    exists (t1 ++ t2)%list. rewrite Ht2, Ht1, app_assoc. split; [reflexivity|].
    now apply Happ.
  - split; [|intros e [= <-]; now apply He1]. exists t1. split; [exact Ht1|now apply Hleft].
Qed.

Lemma emits_weaken {A} (T T' : list Call -> Prop) (E E' : Error -> Prop) (m : M World A) :
  emits T E m -> (forall t, T t -> T' t) -> (forall e, E e -> E' e) -> emits T' E' m.
Proof.
  intros Hm HT HE env. destruct (Hm env) as [(t & Ht & HTt) He].
  split; [exists t; auto|auto].
Qed.

(** Sequencing two computations that only search. *)
Lemma searches_bind {A B} (m : M World A) (k : A -> M World B) :
  emits (Forall isSearch) isSpotifyError m ->
  (forall a, emits (Forall isSearch) isSpotifyError (k a)) ->
  emits (Forall isSearch) isSpotifyError (bind m k).
Proof.
  intros Hm Hk. apply (emits_bind _ _ _ _ _ _ Hm Hk); [auto|].
  intros t1 t2 H1 H2. apply Forall_app. now split.
Qed.

End MonadFacts.

Lemma countOpenAI_app t1 t2 :
  countOpenAI (t1 ++ t2) = (countOpenAI t1 + countOpenAI t2)%nat.
Proof. unfold countOpenAI. now rewrite List.filter_app, length_app. Qed.

Lemma searches_within t : Forall isSearch t -> generationsWithin 0 t.
Proof.
  induction 1 as [|c t Hc _ [IHn IHf]]; [split; [reflexivity|constructor]|].
  destruct c as [[q| |]|r]; try contradiction.
  split; [exact IHn|now constructor].
Qed.

Lemma generationsWithin_app n1 n2 t1 t2 :
  generationsWithin n1 t1 -> generationsWithin n2 t2 ->
  generationsWithin (n1 + n2) (t1 ++ t2).
Proof.
  intros [Hn1 Hf1] [Hn2 Hf2]. split.
  - rewrite countOpenAI_app. lia.
  - apply Forall_app. now split.
Qed.

Lemma generationsWithin_le n m t :
  (n <= m)%nat -> generationsWithin n t -> generationsWithin m t.
Proof. intros Hle [Hn Hf]. split; [lia|exact Hf]. Qed.

(** ** Call log of the engine *)

Section EngineCalls.
Context {World : Type} `{Collaborators World} `{Runtime}.

Lemma callSpotify_search query :
  emits (Forall isSearch) isSpotifyError (callSpotify (Search query)).
Proof.
  intros env. unfold callSpotify.
  destruct (spotifyRequest (Search query) (fst env)) as [[f|reply] w]; simpl.
  - split; [|now intros ? [= <-]]. eexists. split; [reflexivity|]. now repeat constructor.
  - split; [|discriminate]. eexists. split; [reflexivity|]. now repeat constructor.
Qed.

Lemma callOpenAI_one r :
  emits (fun t => t = [CallOpenAI r]) (fun e => e = OpenAIError) (callOpenAI r).
Proof.
  intros env. unfold callOpenAI.
  destruct (openaiComplete r (fst env)) as [[content|] w]; simpl.
  - split; [eauto|discriminate].
  - split; [eauto|now intros ? [= <-]].
Qed.

Lemma findByQueries_searches queries artist :
  emits (Forall isSearch) isSpotifyError (findByQueries queries artist).
Proof.
  induction queries as [|query rest IH]; simpl; [now apply emits_ret|].
  apply searches_bind; [apply callSpotify_search|]. intros data.
  destruct (pickBestTrackCandidate _ _); [|exact IH].
  destruct (negb _); [now apply emits_ret|exact IH].
Qed.

Lemma matchCandidate_searches candidate st :
  emits (Forall isSearch) isSpotifyError (matchCandidate candidate st).
Proof.
  unfold matchCandidate. case_bool_decide; [now apply emits_ret|].
  apply searches_bind; [apply findByQueries_searches|]. intros found.
  destruct (withUri found); [case_bool_decide|]; now apply emits_ret.
Qed.

Lemma matchCandidatesToSpotify_searches candidates : forall st,
  emits (Forall isSearch) isSpotifyError (matchCandidatesToSpotify candidates st).
Proof.
  induction candidates as [|c rest IH]; intros st; simpl; [now apply emits_ret|].
  apply searches_bind; [apply matchCandidate_searches|exact IH].
Qed.

Lemma generateTracklist_one description trackCount excludedTracks :
  emits (fun t => t = [CallOpenAI {| gen_description := description;
                                     gen_trackCount := trackCount;
                                     gen_exclusions := renderExclusions excludedTracks |}])
        notUnableToBuild
        (generateTracklist description trackCount excludedTracks).
Proof.
  unfold generateTracklist.
  set (r := {| gen_description := description; gen_trackCount := trackCount;
               gen_exclusions := renderExclusions excludedTracks |}).
  apply emits_bind with (T1 := fun t => t = [CallOpenAI r]) (T2 := fun t => t = []).
  - eapply emits_weaken; [apply callOpenAI_one|intros t Ht; exact Ht|now intros ? ->].
  - intros content.
    eapply emits_bind with (T1 := fun t => t = []) (T2 := fun t => t = []).
    + unfold parsePotentialJson. destruct (JSON_parse content); [now apply emits_ret|].
      destruct (matchBraces content); [|now apply emits_throw].
      destruct (JSON_parse _); [now apply emits_ret|now apply emits_throw].
    + intros parsed.
      eapply emits_bind with (T1 := fun t => t = []) (T2 := fun t => t = []).
      * unfold tracksOf. destruct parsed; (now apply emits_ret) || (now apply emits_throw).
      * intros tracks. destruct tracks; try (now apply emits_throw).
        destruct (_ =? _)%nat; [now apply emits_throw|now apply emits_ret].
      * auto.
      * now intros ? ? -> ->.
    + auto.
    + now intros ? ? -> ->.
  - auto.
  - intros ? ? -> ->. reflexivity.
Qed.

Lemma generateCountFor_range desiredCount st :
  8 <= generateCountFor desiredCount st <= 50.
Proof. unfold generateCountFor. lia. Qed.

Lemma expansionRound_calls description desiredCount st :
  emits (fun t => exists searches,
             t = CallOpenAI {| gen_description := description;
                               gen_trackCount := generateCountFor desiredCount st;
                               gen_exclusions := renderExclusions (excludedTracksFor st) |}
                   :: searches
             /\ Forall isSearch searches)
        notUnableToBuild
        (expansionRound description desiredCount st).
Proof.
  unfold expansionRound.
  eapply emits_bind; [apply generateTracklist_one| |..].
  - intros generated. eapply emits_weaken;
      [apply matchCandidatesToSpotify_searches|intros t Ht; exact Ht|].
    now intros [].
  - intros ? ->. exists []. split; [reflexivity|constructor].
  - intros ? searches -> Hs. exists searches. now split.
Qed.

Lemma expansionLoop_calls description desiredCount fuel : forall attempt st,
  emits (generationsWithin fuel) notUnableToBuild
        (expansionLoop fuel description desiredCount attempt st).
Proof.
  induction fuel as [|fuel IH]; intros attempt st; simpl.
  - apply emits_ret. split; [reflexivity|constructor].
  - destruct (_ && _); [|apply emits_ret; split; [unfold countOpenAI; simpl; lia|constructor]].
    assert (Hround : forall t,
               (exists searches,
                   t = CallOpenAI {| gen_description := description;
                                     gen_trackCount := generateCountFor desiredCount st;
                                     gen_exclusions :=
                                       renderExclusions (excludedTracksFor st) |}
                         :: searches
                   /\ Forall isSearch searches) ->
               generationsWithin 1 t).
    { intros t (searches & -> & Hs). destruct (searches_within _ Hs) as [Hn Hf].
      split.
      - unfold countOpenAI in *. simpl. lia.
      - constructor; [apply generateCountFor_range|exact Hf]. }
    eapply emits_bind; [apply expansionRound_calls|intros st'; apply IH|..].
    + intros t Ht. apply (generationsWithin_le 1); [lia|now apply Hround].
    + intros t1 t2 Ht1 Ht2. apply (generationsWithin_app 1 fuel); [now apply Hround|exact Ht2].
Qed.

Lemma fallback_searches desiredCount st :
  emits (Forall isSearch) isSpotifyError (fallback desiredCount st).
Proof.
  unfold fallback. destruct (_ <? _); [|now apply emits_ret].
  apply matchCandidatesToSpotify_searches.
Qed.

Lemma gatherMatches_calls description desiredCount seedCandidates :
  emits (generationsWithin 8) notUnableToBuild
        (gatherMatches description desiredCount seedCandidates).
Proof.
  unfold gatherMatches.
  eapply emits_bind with (T1 := generationsWithin 0) (T2 := generationsWithin 8).
  - eapply emits_weaken; [apply matchCandidatesToSpotify_searches|apply searches_within|].
    now intros [].
  - intros st0.
    eapply emits_bind with (T1 := generationsWithin 8) (T2 := generationsWithin 0).
    + apply (expansionLoop_calls description desiredCount 8).
    + intros st1. eapply emits_weaken; [apply fallback_searches|apply searches_within|].
      now intros [].
    + auto.
    + intros t1 t2 H1 H2. apply (generationsWithin_app 8 0); assumption.
  - intros t Ht. apply (generationsWithin_le 0); [lia|exact Ht].
  - intros t1 t2 H1 H2. apply (generationsWithin_app 0 8); assumption.
Qed.

End EngineCalls.

(** ** State of the engine *)

Lemma NoDup_snoc {A} (l : list A) (x : A) : NoDup l -> ~ In x l -> NoDup (l ++ [x]).
Proof.
  intros Hl Hx. apply NoDup_app. split; [exact Hl|]. split; [|apply NoDup_singleton].
  intros y Hy Hy'. apply list_elem_of_singleton in Hy'. subst y.
  now apply Hx, list_elem_of_In.
Qed.

Section EngineState.
Context {World : Type} `{Collaborators World} `{Runtime}.

(** A matching step keeps the invariant and only appends to [matched]. *)
Lemma matchCandidate_inv candidate st env st' env' :
  matchCandidate candidate st env = (Returned st', env') ->
  (poolInv st -> poolInv st')
  /\ exists more, st_matched st' = (st_matched st ++ more)%list.
Proof.
  unfold matchCandidate. case_bool_decide as Hkey.
  - intros [= <- <-]. split; [auto|]. exists []. now rewrite app_nil_r.
  - intros Hrun. apply bind_Returned in Hrun as (found & env1 & _ & Hret).
    destruct (withUri found) as [m|]; [case_bool_decide as Hused|];
      injection Hret as <- <-; simpl.
    + split; [|exists []; now rewrite app_nil_r]. intros [Hnd Hall]. now split.
    + split; [|eauto]. intros [Hnd Hall]. split; simpl.
      * rewrite List.map_app. simpl. apply NoDup_snoc; [exact Hnd|].
        intros Hin. apply in_map_iff in Hin as (x & Hx & Hin).
        rewrite List.Forall_forall in Hall. destruct (Hall x Hin) as [_ Hu].
        apply Hused. now rewrite <- Hx.
      * apply Forall_app. split.
        -- eapply Forall_impl; [exact Hall|]. simpl. intros x [Hd Hu].
           split; [exact Hd|set_solver].
        -- constructor; [|constructor]. simpl. split; [reflexivity|set_solver].
    + split; [|exists []; now rewrite app_nil_r]. intros [Hnd Hall]. now split.
Qed.

Lemma matchCandidatesToSpotify_inv candidates : forall st env st' env',
  matchCandidatesToSpotify candidates st env = (Returned st', env') ->
  (poolInv st -> poolInv st')
  /\ exists more, st_matched st' = (st_matched st ++ more)%list.
Proof.
  induction candidates as [|c rest IH]; intros st env st' env'; simpl.
  - intros [= <- <-]. split; [auto|]. exists []. now rewrite app_nil_r.
  - intros Hrun. apply bind_Returned in Hrun as (st1 & env1 & Hone & Hrest).
    apply matchCandidate_inv in Hone as [Hinv1 [more1 Hmore1]].
    apply IH in Hrest as [Hinv2 [more2 Hmore2]].
    split; [auto|]. exists (more1 ++ more2)%list.
    now rewrite Hmore2, Hmore1, app_assoc.
Qed.

Lemma expansionRound_inv description desiredCount st env st' env' :
  expansionRound description desiredCount st env = (Returned st', env') ->
  (poolInv st -> poolInv st')
  /\ exists more, st_matched st' = (st_matched st ++ more)%list.
Proof.
  unfold expansionRound. intros Hrun.
  apply bind_Returned in Hrun as (generated & env1 & _ & Hmatch).
  now apply matchCandidatesToSpotify_inv in Hmatch.
Qed.

Lemma expansionLoop_inv description desiredCount fuel : forall attempt st env st' env',
  expansionLoop fuel description desiredCount attempt st env = (Returned st', env') ->
  (poolInv st -> poolInv st')
  /\ exists more, st_matched st' = (st_matched st ++ more)%list.
Proof.
  induction fuel as [|fuel IH]; intros attempt st env st' env'; simpl.
  - intros [= <- <-]. split; [auto|]. exists []. now rewrite app_nil_r.
  - destruct (_ && _).
    + intros Hrun. apply bind_Returned in Hrun as (st1 & env1 & Hround & Hrest).
      apply expansionRound_inv in Hround as [Hinv1 [more1 Hmore1]].
      apply IH in Hrest as [Hinv2 [more2 Hmore2]].
      split; [auto|]. exists (more1 ++ more2)%list.
      now rewrite Hmore2, Hmore1, app_assoc.
    + intros [= <- <-]. split; [auto|]. exists []. now rewrite app_nil_r.
Qed.

Lemma fallback_inv desiredCount st env st' env' :
  fallback desiredCount st env = (Returned st', env') ->
  (poolInv st -> poolInv st')
  /\ exists more, st_matched st' = (st_matched st ++ more)%list.
Proof.
  unfold fallback. destruct (_ <? _).
  - apply matchCandidatesToSpotify_inv.
  - intros [= <- <-]. split; [auto|]. exists []. now rewrite app_nil_r.
Qed.

Lemma emptyPool_inv : poolInv emptyPool.
Proof. split; simpl; constructor. Qed.

Lemma gatherMatches_inv description desiredCount seedCandidates env st env' :
  gatherMatches description desiredCount seedCandidates env = (Returned st, env') ->
  poolInv st.
Proof.
  unfold gatherMatches. intros Hrun.
  apply bind_Returned in Hrun as (st0 & env0 & Hseed & Hrun).
  apply bind_Returned in Hrun as (st1 & env1 & Hloop & Hfb).
  apply matchCandidatesToSpotify_inv in Hseed as [Hi0 _].
  apply expansionLoop_inv in Hloop as [Hi1 _].
  apply fallback_inv in Hfb as [Hi2 _].
  apply Hi2, Hi1, Hi0, emptyPool_inv.
Qed.

(** The expansion loop stops on its own guard: fuel beyond
    [maxAttempts - attempt] is never used. *)
Lemma expansionLoop_fuel description desiredCount fuel : forall attempt st env,
  (Z.to_nat (maxAttempts - attempt) <= fuel)%nat ->
  expansionLoop fuel description desiredCount attempt st env =
  expansionLoop (Z.to_nat (maxAttempts - attempt)) description desiredCount attempt st env.
Proof.
  induction fuel as [|fuel IH]; intros attempt st env Hfuel.
  - now replace (Z.to_nat (maxAttempts - attempt)) with 0%nat by lia.
  - simpl. destruct (matchedLength st <? desiredCount) eqn:Hshort; simpl.
    + destruct (Z.ltb_spec attempt maxAttempts) as [Hlt|Hge].
      * replace (Z.to_nat (maxAttempts - attempt))
          with (S (Z.to_nat (maxAttempts - (attempt + 1)))) by lia.
        simpl. rewrite Hshort. replace (attempt <? maxAttempts) with true by (symmetry; lia).
        simpl. unfold bind.
        destruct (expansionRound description desiredCount st env) as [[st1|e] env1];
          [|reflexivity].
        apply IH. lia.
      * replace (Z.to_nat (maxAttempts - attempt)) with 0%nat by lia. reflexivity.
    + destruct (Z.to_nat (maxAttempts - attempt)); simpl; [reflexivity|].
      now rewrite Hshort.
Qed.

End EngineState.

(** ** The end of a run *)

Lemma unique_base_clones (base clones : list MatchResult) :
  NoDup (List.map uri base) ->
  Forall (fun m => duplicated m = true) clones ->
  uniqueUnlessDuplicated (base ++ clones).
Proof.
  intros Hnd Hclones i j a b Hij Ha Hb Huri.
  rewrite List.Forall_forall in Hclones.
  apply lookup_app_Some in Ha as [Ha|[_ Ha]];
    [|left; apply Hclones; eapply list_elem_of_In, list_elem_of_lookup_2, Ha].
  apply lookup_app_Some in Hb as [Hb|[_ Hb]];
    [|right; apply Hclones; eapply list_elem_of_In, list_elem_of_lookup_2, Hb].
  exfalso. apply Hij.
  apply (NoDup_lookup (List.map uri base) i j (uri a)); [exact Hnd| |].
  - change (List.map uri base) with (uri <$> base). now rewrite list_lookup_fmap, Ha.
  - change (List.map uri base) with (uri <$> base). now rewrite list_lookup_fmap, Hb, Huri.
Qed.

Lemma unique_take (n : nat) (l : list MatchResult) :
  uniqueUnlessDuplicated l -> uniqueUnlessDuplicated (take n l).
Proof.
  intros Hl i j a b Hij Ha Hb.
  apply lookup_take_Some in Ha as [Ha _]. apply lookup_take_Some in Hb as [Hb _].
  now apply (Hl i j).
Qed.

Lemma slice0_length {A} (l : list A) (e : Z) :
  0 <= e <= Z.of_nat (length l) -> Z.of_nat (length (slice0 l e)) = e.
Proof.
  intros He. unfold slice0. destruct (Z.ltb_spec e 0); [lia|].
  rewrite length_take. lia.
Qed.

Lemma finishPool_Returned (desiredCount : Z) (st : PoolState) (r : PoolResult) :
  0 <= desiredCount -> poolInv st ->
  finishPool desiredCount st = Returned r ->
  Z.of_nat (length (res_matched r)) = desiredCount
  /\ uniqueUnlessDuplicated (res_matched r).
Proof.
  intros Hpos [Hnd Hall] Hfin.
  destruct (Z.ltb_spec (Z.of_nat (length (st_matched st))) desiredCount) as [Hshort|Hfull].
  - destruct (Nat.eq_dec (length (st_matched st)) 0%nat) as [Hzero|Hsome].
    + unfold finishPool, duplicateFill in Hfin. rewrite Hzero in Hfin. simpl in Hfin.
      rewrite andb_false_r in Hfin. rewrite Hzero in Hfin. simpl in Hfin.
      destruct (Z.ltb_spec (Z.of_nat 0) desiredCount); [discriminate|lia].
    + destruct (finishPool_fill desiredCount st) as (clones & Hres & Hlen & Hclones);
        [lia|exact Hshort|].
      rewrite Hres in Hfin. injection Hfin as <-. simpl. split; [exact Hlen|].
      apply unique_base_clones; [exact Hnd|].
      apply List.Forall_forall. intros c Hc.
      apply list_elem_of_In, list_elem_of_lookup_1 in Hc as [k Hk].
      destruct (Hclones k) as (b & _ & Hck & Hdup & _);
        [eapply lookup_lt_Some, Hk|]. congruence.
  - unfold finishPool, duplicateFill in Hfin.
    replace (Z.of_nat (length (st_matched st)) <? desiredCount) with false in Hfin
      by (symmetry; lia).
    simpl in Hfin.
    replace (Z.of_nat (length (st_matched st)) <? desiredCount) with false in Hfin
      by (symmetry; lia).
    injection Hfin as <-. simpl. split; [apply slice0_length; lia|].
    unfold slice0. destruct (Z.ltb_spec desiredCount 0); [lia|].
    apply unique_take. rewrite <- (app_nil_r (st_matched st)).
    apply unique_base_clones; [exact Hnd|constructor].
Qed.

Lemma finishPool_Thrown (desiredCount : Z) (st : PoolState) (e : Error) :
  finishPool desiredCount st = Thrown e <->
  st_matched st = [] /\ 0 < desiredCount /\ e = UnableToBuild 0 desiredCount.
Proof.
  destruct (Z.ltb_spec (Z.of_nat (length (st_matched st))) desiredCount) as [Hshort|Hfull].
  - destruct (st_matched st) as [|m rest] eqn:Hm.
    + unfold finishPool, duplicateFill. rewrite Hm. simpl in *.
      rewrite andb_false_r. simpl.
      change (Z.of_nat 0) with 0 in *.
      replace (0 <? desiredCount) with true by (symmetry; lia).
      split; [now intros [= <-]|now intros (_ & _ & ->)].
    + destruct (finishPool_fill desiredCount st) as (clones & Hres & _);
        [rewrite Hm; simpl; lia|now rewrite Hm|].
      rewrite Hres. split; [discriminate|]. intros (Hnil & _). discriminate Hnil.
  - unfold finishPool, duplicateFill.
    replace (Z.of_nat (length (st_matched st)) <? desiredCount) with false
      by (symmetry; lia).
    simpl.
    replace (Z.of_nat (length (st_matched st)) <? desiredCount) with false
      by (symmetry; lia).
    split; [discriminate|]. intros (Hnil & Hpos & _). rewrite Hnil in Hfull.
    simpl in Hfull. lia.
Qed.

Lemma finishPool_short (desiredCount : Z) (st : PoolState) :
  (exists e, finishPool desiredCount st = Thrown e) <->
  Z.of_nat (length (fst (duplicateFill desiredCount (st_matched st)))) < desiredCount.
Proof.
  unfold finishPool. destruct (duplicateFill desiredCount (st_matched st)) as [filled n].
  simpl. destruct (Z.ltb_spec (Z.of_nat (length filled)) desiredCount); split.
  - auto.
  - eauto.
  - intros (e & He). discriminate.
  - lia.
Qed.

(** ** The reconciliation run *)

Section Reconciliation.
Context {World : Type} `{Collaborators World} `{Runtime}.


(** C2, as the code has it: the run throws the unable-to-build error,
    carrying the achieved and the desired count, exactly when the matching
    phases (seeds, expansion, fallback) return and the list is still short
    after the duplicate fill; that is the case exactly when the matched
    list is empty and the desired count is positive, so the achieved count
    is 0; the matched list never shrinks during a run, so no track was
    ever resolved; and a run for a desired count of 0 whose matching phases
    return does not fail: it returns an empty matched list with no
    duplicate fill. *)
Theorem unable_to_build_iff
    (description : string) (desiredCount : Z) (seedCandidates : list Candidate)
    (env : World * list Call) :
  (forall a d env',
      buildMatchedTrackPool description desiredCount seedCandidates env
        = (Thrown (UnableToBuild a d), env') <->
      exists st,
        gatherMatches description desiredCount seedCandidates env = (Returned st, env')
        /\ Z.of_nat (length (fst (duplicateFill desiredCount (st_matched st)))) < desiredCount
        /\ a = Z.of_nat (length (fst (duplicateFill desiredCount (st_matched st))))
        /\ d = desiredCount)
  /\ (forall st,
         Z.of_nat (length (fst (duplicateFill desiredCount (st_matched st)))) < desiredCount <->
         st_matched st = [] /\ 0 < desiredCount)
  /\ (forall st0 env0 st env',
         matchCandidatesToSpotify seedCandidates emptyPool env = (Returned st0, env0) ->
         gatherMatches description desiredCount seedCandidates env = (Returned st, env') ->
         exists more, st_matched st = (st_matched st0 ++ more)%list)
  /\ (forall st env',
         gatherMatches description 0 seedCandidates env = (Returned st, env') ->
         buildMatchedTrackPool description 0 seedCandidates env
         = (Returned {| res_matched := [];
                        res_unmatched := st_unmatched st;
                        duplicateFillCount := 0 |}, env')).
Proof.
  split; [|split; [|split]].
  - intros a d env'. unfold buildMatchedTrackPool. split.
    + intros Hrun. apply bind_Thrown in Hrun as [Hthrow|(st & env1 & Hgather & Hfin)].
      * destruct (gatherMatches_calls description desiredCount seedCandidates env)
          as [_ Herr].
        rewrite Hthrow in Herr. destruct (Herr _ eq_refl).
      * unfold liftOutcome in Hfin. injection Hfin as Hfin <-.
        exists st. split; [exact Hgather|].
        unfold finishPool in Hfin.
        destruct (duplicateFill desiredCount (st_matched st)) as [filled n]. simpl.
        destruct (Z.ltb_spec (Z.of_nat (length filled)) desiredCount);
          [|discriminate].
        injection Hfin as <- <-. auto.
    + intros (st & Hgather & Hshort & -> & ->).
      rewrite (bind_returns _ _ _ _ _ Hgather). unfold liftOutcome, finishPool.
      destruct (duplicateFill desiredCount (st_matched st)) as [filled n]. simpl in *.
      destruct (Z.ltb_spec (Z.of_nat (length filled)) desiredCount); [reflexivity|lia].
  - intros st. rewrite <- finishPool_short. split.
    + intros (e & He). apply finishPool_Thrown in He as (Hnil & Hpos & _). auto.
    + intros (Hnil & Hpos). exists (UnableToBuild 0 desiredCount).
      apply finishPool_Thrown. auto.
  - intros st0 env0 st env' Hseed Hgather. unfold gatherMatches in Hgather.
    apply bind_Returned in Hgather as (st0' & env0' & Hseed' & Hrest).
    rewrite Hseed in Hseed'. injection Hseed' as <- <-.
    apply bind_Returned in Hrest as (st1 & env1 & Hloop & Hfb).
    apply expansionLoop_inv in Hloop as [_ [more1 Hmore1]].
    apply fallback_inv in Hfb as [_ [more2 Hmore2]].
    exists (more1 ++ more2)%list. now rewrite Hmore2, Hmore1, app_assoc.
  - intros st env' Hgather. unfold buildMatchedTrackPool.
    rewrite (bind_returns _ _ _ _ _ Hgather). unfold liftOutcome. f_equal.
    unfold finishPool, duplicateFill.
    destruct (Z.ltb_spec (Z.of_nat (length (st_matched st))) 0) as [Hneg|_]; [lia|].
    simpl. destruct (Z.ltb_spec (Z.of_nat (length (st_matched st))) 0) as [Hneg|_]; [lia|].
    reflexivity.
Qed.

(** C3, as the code has it: when the generation call of an expansion round
    throws, the loop throws the same error at once, and so does
    [buildMatchedTrackPool]: the error reaches the caller, no further round,
    fallback or duplicate fill takes place. *)
Theorem generation_failure_propagates (description : string) (desiredCount : Z) :
  (forall fuel attempt st env e env1,
      matchedLength st < desiredCount -> attempt < maxAttempts ->
      generateTracklist description (generateCountFor desiredCount st)
        (excludedTracksFor st) env = (Thrown e, env1) ->
      expansionLoop (S fuel) description desiredCount attempt st env = (Thrown e, env1))
  /\ (forall seedCandidates env st0 env0 e env1,
         matchCandidatesToSpotify seedCandidates emptyPool env = (Returned st0, env0) ->
         expansionLoop (Z.to_nat maxAttempts) description desiredCount 0 st0 env0
           = (Thrown e, env1) ->
         buildMatchedTrackPool description desiredCount seedCandidates env
           = (Thrown e, env1)).
Proof.
  split.
  - intros fuel attempt st env e env1 Hshort Hattempt Hgen. simpl.
    replace (matchedLength st <? desiredCount) with true by (symmetry; lia).
    replace (attempt <? maxAttempts) with true by (symmetry; lia). simpl.
    apply bind_throws. unfold expansionRound. now apply bind_throws.
  - intros seedCandidates env st0 env0 e env1 Hseed Hloop.
    unfold buildMatchedTrackPool, gatherMatches.
    apply bind_throws. rewrite (bind_returns _ _ _ _ _ Hseed). now apply bind_throws.
Qed.


End Reconciliation.


(** ** The candidate generator's post-filter *)

Lemma trimEnd_idem s : trimEnd (trimEnd s) = trimEnd s.
Proof.
  induction s as [|c s IH]; simpl; [reflexivity|].
  destruct (trimEnd s) as [|c' r] eqn:E.
  - destruct (isWhiteSpace c) eqn:Hc; simpl; [reflexivity|now rewrite Hc].
  - simpl in *. now rewrite IH.
Qed.

Lemma trimStart_fixed s :
  (forall c r, s = String c r -> isWhiteSpace c = false) -> trimStart s = s.
Proof.
  destruct s as [|c r]; simpl; [reflexivity|]. intros Hhead.
  now rewrite (Hhead c r eq_refl).
Qed.

Lemma trim_idem s : trim (trim s) = trim s.
Proof.
  unfold trim. rewrite (trimStart_fixed (trimEnd (trimStart s))); [apply trimEnd_idem|].
  intros c r E. destruct (trimEnd_head _ _ _ E) as [r' E'].
  exact (trimStart_head _ _ _ E').
Qed.

Lemma postFilter_facts (tracks : list JsVal) (trackCount : Z) :
  0 <= trackCount ->
  postFilter tracks trackCount =
    List.map toCandidate (take (Z.to_nat trackCount) (List.filter hasTitleAndArtist tracks))
  /\ Z.of_nat (length (postFilter tracks trackCount)) <= trackCount
  /\ Forall (fun c => trim (title c) = title c /\ trim (artist c) = artist c)
            (postFilter tracks trackCount)
  /\ (postFilter tracks trackCount = [] <->
      trackCount = 0 \/ Forall (fun t => hasTitleAndArtist t = false) tracks).
Proof.
  intros Hpos. unfold postFilter, slice0.
  destruct (Z.ltb_spec trackCount 0) as [Hneg|_]; [lia|].
  split; [reflexivity|]. split; [|split].
  - rewrite length_map, length_take. lia.
  - apply List.Forall_forall. intros c Hc. apply in_map_iff in Hc as (t & <- & _).
    simpl. split; apply trim_idem.
  - split.
    + intros Hnil. apply map_eq_nil in Hnil.
      destruct (Z.to_nat trackCount) as [|n] eqn:En; [left; lia|right].
      destruct (List.filter hasTitleAndArtist tracks) as [|t rest] eqn:Hf; [|discriminate].
      apply List.Forall_forall. intros t Ht.
      destruct (hasTitleAndArtist t) eqn:Hok; [|reflexivity].
      assert (Hin : In t (List.filter hasTitleAndArtist tracks))
        by (apply filter_In; now split).
      rewrite Hf in Hin. destruct Hin.
    + intros [->|Hnone]; [reflexivity|].
      replace (List.filter hasTitleAndArtist tracks) with (@nil JsVal);
        [now rewrite take_nil|].
      symmetry. induction Hnone as [|t rest Ht _ IH]; simpl; [reflexivity|].
      now rewrite Ht.
Qed.

Section GeneratorFacts.
Context {World : Type} `{Collaborators World} `{Runtime}.


(** A candidate whose key was already attempted is skipped by
    [matchCandidatesToSpotify] without any call. *)
Lemma matchCandidate_gate candidate st env :
  makeTrackKey (title candidate) (artist candidate) ∈ attemptedTrackKeys st ->
  matchCandidate candidate st env = (Returned st, env).
Proof. intros Hkey. unfold matchCandidate. now rewrite bool_decide_eq_true_2. Qed.

(** A candidate that was processed has its key recorded, and recorded
    keys stay. *)
Lemma matchCandidate_records candidate st env st' env' :
  matchCandidate candidate st env = (Returned st', env') ->
  makeTrackKey (title candidate) (artist candidate) ∈ attemptedTrackKeys st'
  /\ attemptedTrackKeys st ⊆ attemptedTrackKeys st'.
Proof.
  unfold matchCandidate. case_bool_decide as Hkey.
  - intros [= <- <-]. split; [exact Hkey|reflexivity].
  - intros Hrun. apply bind_Returned in Hrun as (found & env1 & _ & Hret).
    destruct (withUri found) as [m|]; [case_bool_decide|];
      injection Hret as <- <-; simpl; split; set_solver.
Qed.

Lemma matchCandidatesToSpotify_records candidates : forall st env st' env',
  matchCandidatesToSpotify candidates st env = (Returned st', env') ->
  attemptedTrackKeys st ⊆ attemptedTrackKeys st'
  /\ forall c, In c candidates ->
                makeTrackKey (title c) (artist c) ∈ attemptedTrackKeys st'.
Proof.
  induction candidates as [|c0 rest IH]; intros st env st' env'; simpl.
  - intros [= <- <-]. split; [reflexivity|intros ? []].
  - intros Hrun. apply bind_Returned in Hrun as (st1 & env1 & Hone & Hrest).
    apply matchCandidate_records in Hone as [Hkey Hsub].
    apply IH in Hrest as [Hsub' Hkeys].
    split; [transitivity (attemptedTrackKeys st1); assumption|].
    intros c [<-|Hc]; [now apply Hsub'|now apply Hkeys].
Qed.

(** In the engine a key is resolved at most once: a candidate whose key is
    already recorded, or equals the key of an earlier candidate of the
    list, can be removed from the list without changing the run: state,
    outcome and call log are the same. *)
Lemma matchCandidatesToSpotify_skips_repeat earlier : forall repeated later st env,
  makeTrackKey (title repeated) (artist repeated) ∈ attemptedTrackKeys st
  \/ (exists first, In first earlier
                    /\ makeTrackKey (title first) (artist first)
                       = makeTrackKey (title repeated) (artist repeated)) ->
  matchCandidatesToSpotify (earlier ++ repeated :: later) st env =
  matchCandidatesToSpotify (earlier ++ later) st env.
Proof.
  induction earlier as [|c rest IH]; intros repeated later st env Hseen; simpl.
  - destruct Hseen as [Hkey|(first & [] & _)].
    now rewrite (bind_returns _ _ _ _ _ (matchCandidate_gate repeated st env Hkey)).
  - unfold bind.
    destruct (matchCandidate c st env) as [[st1|e] env1] eqn:Hone; [|reflexivity].
    apply matchCandidate_records in Hone as [Hkey Hsub].
    apply IH. destruct Hseen as [Hin|(first & [<-|Hfirst] & Heq)].
    + left. now apply Hsub.
    + left. now rewrite <- Heq.
    + right. eauto.
Qed.

Lemma callSpotify_one c :
  emits (fun t => t = [CallSpotify c]) (fun _ => True) (callSpotify c).
Proof.
  intros env. unfold callSpotify.
  destruct (spotifyRequest c (fst env)) as [[f|reply] w]; simpl; split; eauto.
Qed.

Lemma findSpotifyTrackUri_first_search candidate :
  emits (fun t => exists more,
             t = CallSpotify (Search ("track:" +:+ title candidate +:+ " artist:"
                                        +:+ artist candidate)) :: more)
        (fun _ => True)
        (findSpotifyTrackUri candidate).
Proof.
  unfold findSpotifyTrackUri. simpl findByQueries.
  eapply emits_bind with (T2 := fun _ => True); [apply callSpotify_one| | |].
  - intros data.
    assert (Hq : emits (fun _ : list Call => True) (fun _ => True)
                   (findByQueries [title candidate +:+ " " +:+ artist candidate]
                      (artist candidate))).
    { eapply emits_weaken; [apply findByQueries_searches|auto|auto]. }
    destruct (pickBestTrackCandidate _ _); [|exact Hq].
    destruct (negb _); [now apply emits_ret|exact Hq].
  - intros t ->. eauto.
  - intros t1 t2 -> _. simpl. eauto.
Qed.

(** The preview handler has no gate: whatever keys are recorded, a
    candidate starts with the search for its structured query. *)
Lemma previewCandidate_searches candidate st :
  emits (fun t => exists more,
             t = CallSpotify (Search ("track:" +:+ title candidate +:+ " artist:"
                                        +:+ artist candidate)) :: more)
        (fun _ => True)
        (previewCandidate candidate st).
Proof.
  unfold previewCandidate.
  eapply emits_bind with (T2 := fun _ => True);
    [apply findSpotifyTrackUri_first_search| | |].
  - intros found. destruct (withUri found); [case_bool_decide|]; now apply emits_ret.
  - auto.
  - intros t1 t2 (more & ->) _. simpl. eauto.
Qed.

(** The batch loop stops on its own guard: fuel beyond the number of uris
    is never used. *)
Lemma addInBatches_fuel playlist fuel : forall fuel' uris env,
  (length uris <= fuel)%nat -> (length uris <= fuel')%nat ->
  addInBatches fuel playlist uris env = addInBatches fuel' playlist uris env.
Proof.
  induction fuel as [|fuel IH]; intros fuel' uris env Hfuel Hfuel'.
  - destruct uris; [|simpl in Hfuel; lia]. now destruct fuel'.
  - destruct uris as [|u rest]; [now destruct fuel'|].
    destruct fuel' as [|fuel']; [simpl in Hfuel'; lia|].
    simpl. unfold bind.
    destruct (callSpotify (AddItems playlist (u :: take 99 rest)) env) as [[reply|e] env1];
      [|reflexivity].
    apply IH; rewrite length_drop; simpl in *; lia.
Qed.

End GeneratorFacts.

(** C9, where the code departs from it: the preview handler records the
    track keys but never skips on them, so every candidate is searched for,
    whatever keys were attempted before.  At the failing input the
    generator proposes one track under two spellings with the same key;
    the handler searches the catalogue for both, where
    [matchCandidatesToSpotify] searches for the first only. *)
Theorem preview_resolves_same_key_twice :
  (forall (World : Type) (C : Collaborators World) candidate st env,
      makeTrackKey (title candidate) (artist candidate) ∈ pv_attemptedTrackKeys st ->
      exists more,
        snd (snd (previewCandidate candidate st env)) =
        (snd env ++
           CallSpotify
             (Search ("track:" +:+ title candidate +:+ " artist:" +:+ artist candidate))
           :: more)%list)
  /\ makeTrackKey (title dreams) (artist dreams)
     = makeTrackKey (title dreamsAgain) (artist dreamsAgain)
  /\ snd (snd (@previewPlaylist nat repeatingWorld tableRuntime "d" (JNum (Fin 5)) start)) =
     [ CallOpenAI {| gen_description := "d"; gen_trackCount := 5; gen_exclusions := "" |};
       CallSpotify (Search "track:Dreams artist:Fleetwood Mac");
       CallSpotify (Search "track:dreams! artist:FLEETWOOD MAC");
       CallSpotify (Search "dreams! FLEETWOOD MAC") ]
  /\ snd (snd (@matchCandidatesToSpotify nat repeatingWorld [dreams; dreamsAgain]
                 emptyPool start)) =
     [ CallSpotify (Search "track:Dreams artist:Fleetwood Mac") ].
Proof.
  split.
  - intros World C candidate st env _.
    destruct (previewCandidate_searches candidate st env) as [(t & Ht & more & ->) _].
    eauto.
  - vm_compute. repeat split.
Qed.

(** ** The properties at concrete runs *)


(** A desired count of 0 does not fail: the run returns an empty list. *)
Lemma zero_desired_count_returns :
  @buildMatchedTrackPool nat scarceWorld tableRuntime "d" 0 [] start
  = (Returned {| res_matched := []; res_unmatched := []; duplicateFillCount := 0 |},
     start).
Proof. vm_compute. reflexivity. Qed.

(** Nothing ever resolves, 5 desired: the run fails with 0 of 5. *)
Lemma unable_to_build_run :
  exists env',
    @buildMatchedTrackPool nat barrenWorld tableRuntime "d" 5 [] start
    = (Thrown (UnableToBuild 0 5), env').
Proof.
  eexists.
  apply (proj1 (@unable_to_build_iff nat barrenWorld tableRuntime "d" 5 [] start)).
  eexists. split; [vm_compute; reflexivity|].
  split; [vm_compute; reflexivity|]. split; reflexivity.
Defined.

(** The generator fails in the first round: the caller gets its error
    after that one generation call. *)
Lemma generation_failure_aborts_run :
  @buildMatchedTrackPool nat brokenWorld tableRuntime "d" 5 [] start
  = (Thrown OpenAIError,
     (1%nat, [ CallOpenAI {| gen_description := "d"; gen_trackCount := 15;
                             gen_exclusions := "" |} ])).
Proof. vm_compute. reflexivity. Qed.

Lemma generation_failure_propagates_run :
  @expansionLoop nat brokenWorld tableRuntime 8 "d" 5 0 emptyPool start
  = (Thrown OpenAIError,
     (1%nat, [ CallOpenAI {| gen_description := "d"; gen_trackCount := 15;
                             gen_exclusions := "" |} ]))
  /\ @buildMatchedTrackPool nat brokenWorld tableRuntime "d" 5 [dreams] start
     = (Thrown OpenAIError,
        (1%nat, [ CallSpotify (Search "track:Dreams artist:Fleetwood Mac");
                  CallOpenAI {| gen_description := "d"; gen_trackCount := 12;
                                gen_exclusions := "Dreams - Fleetwood Mac" |} ])).
Proof.
  destruct (@generation_failure_propagates nat brokenWorld tableRuntime "d" 5)
    as [Hround Hrun].
  split.
  - apply Hround; [vm_compute; reflexivity|reflexivity|vm_compute; reflexivity].
  - eapply Hrun; vm_compute; reflexivity.
Defined.




(** An artist score that the empty-request rule, the invariance and the
    bounds apply to. *)
Lemma getArtistConfidence_run :
  getArtistConfidence [ {| artist_name := "Daft Punk" |} ] "?!" = 0%Q
  /\ getArtistConfidence [ {| artist_name := "DAFT  PUNK." |} ] "daft-punk"
     = getArtistConfidence [ {| artist_name := "Daft Punk" |} ] "Daft Punk".
Proof.
  destruct getArtistConfidence_characterised as (_ & Hempty & Hinv & _).
  split; [now apply Hempty|now apply Hinv].
Defined.

(** * Further properties of the code *)

(** ** The shape of normalised strings *)

Lemma isKeyChar_facts c :
  isKeyChar c = true ->
  toLowerChar c = c
  /\ (isLowerAlpha c || isDigit c || isWhiteSpace c) = true
  /\ isWhiteSpace c = Ascii.eqb c " "
  /\ Ascii.eqb c "|" = false.
Proof.
  destruct c as [b0 b1 b2 b3 b4 b5 b6 b7].
  destruct b0, b1, b2, b3, b4, b5, b6, b7; vm_compute; intros E;
    try discriminate E; repeat split.
Qed.

Lemma allChars_app p x y : allChars p (x +:+ y) = allChars p x && allChars p y.
Proof. induction x as [|c x IH]; simpl; [reflexivity|]. now rewrite IH, andb_assoc. Qed.

Lemma allChars_impl (p q : ascii -> bool) s :
  (forall c, p c = true -> q c = true) -> allChars p s = true -> allChars q s = true.
Proof.
  intros Hpq. induction s as [|c s IH]; simpl; [reflexivity|].
  intros H. apply andb_true_iff in H as [Hc Hs]. now rewrite (Hpq c Hc), IH.
Qed.

Lemma replaceNonAlnum_chars s :
  allChars (fun c => isLowerAlpha c || isDigit c || isWhiteSpace c) (replaceNonAlnum s) = true.
Proof.
  induction s as [|c s IH]; simpl; [reflexivity|]. rewrite IH, andb_true_r.
  destruct (isLowerAlpha c || isDigit c || isWhiteSpace c) eqn:E; [exact E|reflexivity].
Qed.

Lemma collapseFrom_chars b s :
  allChars (fun c => isLowerAlpha c || isDigit c || isWhiteSpace c) s = true ->
  allChars isKeyChar (collapseFrom b s) = true.
Proof.
  revert b. induction s as [|c s IH]; intros b; simpl; [reflexivity|].
  intros H. apply andb_true_iff in H as [Hc Hs].
  destruct (isWhiteSpace c) eqn:Hw.
  - destruct b; simpl; auto.
  - simpl. rewrite IH by exact Hs. rewrite andb_true_r.
    unfold isKeyChar. rewrite orb_false_r in Hc. now rewrite Hc.
Qed.

Lemma trimStart_chars p s : allChars p s = true -> allChars p (trimStart s) = true.
Proof.
  induction s as [|c s IH]; simpl; [reflexivity|]. intros H.
  destruct (isWhiteSpace c); [|exact H].
  apply andb_true_iff in H as [_ Hs]. auto.
Qed.

Lemma trimEnd_chars p s : allChars p s = true -> allChars p (trimEnd s) = true.
Proof.
  induction s as [|c s IH]; simpl; [reflexivity|]. intros H.
  apply andb_true_iff in H as [Hc Hs]. specialize (IH Hs).
  destruct (trimEnd s) as [|c' r].
  - destruct (isWhiteSpace c); simpl; [reflexivity|now rewrite Hc].
  - simpl in *. now rewrite Hc.
Qed.

Lemma normalizeText_chars value : allChars isKeyChar (normalizeText value) = true.
Proof.
  unfold normalizeText, trim, collapseWhitespace.
  apply trimEnd_chars, trimStart_chars, collapseFrom_chars, replaceNonAlnum_chars.
Qed.

Lemma collapseFrom_singleSpaced b s : singleSpaced b (collapseFrom b s) = true.
Proof.
  revert b. induction s as [|c s IH]; intros b; simpl; [reflexivity|].
  destruct (isWhiteSpace c) eqn:Hw.
  - destruct b; [apply IH|]. simpl. apply IH.
  - simpl. rewrite Hw. apply IH.
Qed.

Lemma singleSpaced_fixed b s : singleSpaced b s = true -> collapseFrom b s = s.
Proof.
  revert b. induction s as [|c s IH]; intros b; simpl; [reflexivity|].
  destruct (isWhiteSpace c) eqn:Hw.
  - intros H. apply andb_true_iff in H as [H Hs]. apply andb_true_iff in H as [Hb Hc].
    destruct b; [discriminate|]. apply Ascii.eqb_eq in Hc. subst c. now rewrite IH.
  - intros H. now rewrite IH.
Qed.

Lemma trimStart_singleSpaced s : forall b,
  singleSpaced b s = true -> singleSpaced false (trimStart s) = true.
Proof.
  induction s as [|c s IH]; intros b; simpl; [reflexivity|].
  destruct (isWhiteSpace c) eqn:Hw.
  - intros H. apply andb_true_iff in H as [_ Hs]. now apply (IH true).
  - intros H. simpl. now rewrite Hw.
Qed.

Lemma trimEnd_singleSpaced s : forall b,
  singleSpaced b s = true -> singleSpaced b (trimEnd s) = true.
Proof.
  induction s as [|c s IH]; intros b; simpl; [reflexivity|].
  destruct (isWhiteSpace c) eqn:Hw.
  - intros H. apply andb_true_iff in H as [H Hs]. specialize (IH true Hs).
    destruct (trimEnd s) as [|c' r]; [reflexivity|].
    simpl in *. rewrite Hw. now rewrite H, IH.
  - intros Hs. specialize (IH false Hs).
    destruct (trimEnd s) as [|c' r]; simpl in *; now rewrite Hw.
Qed.

Lemma normalizeText_singleSpaced value : singleSpaced false (normalizeText value) = true.
Proof.
  unfold normalizeText, trim, collapseWhitespace.
  apply trimEnd_singleSpaced, (trimStart_singleSpaced _ false), collapseFrom_singleSpaced.
Qed.

Lemma toLowerCase_fixed s : allChars isKeyChar s = true -> toLowerCase s = s.
Proof.
  induction s as [|c s IH]; simpl; [reflexivity|]. intros H.
  apply andb_true_iff in H as [Hc Hs].
  destruct (isKeyChar_facts c Hc) as (-> & _). now rewrite IH.
Qed.

Lemma replaceNonAlnum_fixed s : allChars isKeyChar s = true -> replaceNonAlnum s = s.
Proof.
  induction s as [|c s IH]; simpl; [reflexivity|]. intros H.
  apply andb_true_iff in H as [Hc Hs].
  destruct (isKeyChar_facts c Hc) as (_ & -> & _). now rewrite IH.
Qed.

(** X1: a normalised string holds only lower-case letters, digits and
    spaces, has no space at either end and no two spaces in a row. *)
Theorem normalizeText_shape (value : string) :
  allChars isKeyChar (normalizeText value) = true
  /\ trim (normalizeText value) = normalizeText value
  /\ collapseWhitespace (normalizeText value) = normalizeText value
  /\ (forall c r, normalizeText value = String c r -> c <> " "%char).
Proof.
  split; [apply normalizeText_chars|]. split; [apply trim_idem|].
  split; [apply singleSpaced_fixed, normalizeText_singleSpaced|].
  intros c r E ->. apply normalizeText_head in E. discriminate E.
Qed.

(** X2: [normalizeText] is idempotent: normalising a normalised string
    changes nothing. *)
Theorem normalizeText_idempotent (value : string) :
  normalizeText (normalizeText value) = normalizeText value.
Proof.
  unfold normalizeText at 1.
  rewrite toLowerCase_fixed, replaceNonAlnum_fixed by apply normalizeText_chars.
  unfold collapseWhitespace.
  rewrite (singleSpaced_fixed _ _ (normalizeText_singleSpaced value)).
  apply trim_idem.
Qed.

Lemma append_sep_inj (p : ascii -> bool) (sep : ascii) x : forall y u v,
  p sep = false -> allChars p x = true -> allChars p y = true ->
  x +:+ String sep u = y +:+ String sep v -> x = y /\ u = v.
Proof.
  induction x as [|c x IH]; intros [|d y] u v Hsep Hx Hy; simpl in *.
  - now intros [= ->].
  - intros [= <- _]. apply andb_true_iff in Hy as [Hd _]. congruence.
  - intros [= -> _]. apply andb_true_iff in Hx as [Hc _]. congruence.
  - intros [= -> E]. apply andb_true_iff in Hx as [_ Hx].
    apply andb_true_iff in Hy as [_ Hy].
    destruct (IH y u v Hsep Hx Hy E) as [-> ->]. now split.
Qed.

(** X3: two candidates have the same track key exactly when their titles
    normalise to the same string and their artists do: the separator cannot
    occur in a normalised string, so no two different pairs collide. *)
Theorem makeTrackKey_injective (title1 artist1 title2 artist2 : string) :
  makeTrackKey title1 artist1 = makeTrackKey title2 artist2 <->
  normalizeText title1 = normalizeText title2
  /\ normalizeText artist1 = normalizeText artist2.
Proof.
  unfold makeTrackKey. split; [|now intros [-> ->]].
  intros E.
  apply (append_sep_inj (fun c => negb (Ascii.eqb c "|")) "|"%char) in E; [exact E|reflexivity| |].
  all: eapply allChars_impl; [|apply normalizeText_chars];
    intros c Hc; destruct (isKeyChar_facts c Hc) as (_ & _ & _ & ->); reflexivity.
Qed.

Lemma splitSpace_nonempty s : splitSpace s <> [].
Proof.
  destruct s as [|c s]; simpl; [discriminate|].
  destruct (Ascii.eqb c " "); [discriminate|]. destruct (splitSpace s); discriminate.
Qed.

Lemma join_cons sep x y l : join sep (x :: y :: l) = x +:+ sep +:+ join sep (y :: l).
Proof. reflexivity. Qed.

Lemma join_splitSpace s : join " " (splitSpace s) = s.
Proof.
  induction s as [|c s IH]; simpl; [reflexivity|].
  destruct (Ascii.eqb c " ") eqn:Hc.
  - apply Ascii.eqb_eq in Hc. subst c.
    destruct (splitSpace s) as [|h t] eqn:E; [now apply splitSpace_nonempty in E|].
    rewrite join_cons, IH. reflexivity.
  - destruct (splitSpace s) as [|h t] eqn:E; [now apply splitSpace_nonempty in E|].
    destruct t as [|h' t]; simpl in *; now rewrite <- IH.
Qed.

Lemma trimEnd_fixed_tail c r : trimEnd (String c r) = String c r -> trimEnd r = r.
Proof.
  simpl. destruct (trimEnd r) as [|c' r'] eqn:E.
  - destruct (isWhiteSpace c); [discriminate|]. now intros [= <-].
  - now intros [= <-].
Qed.

Lemma splitSpace_tokens s : forall b,
  singleSpaced b s = true -> trimEnd s = s ->
  Forall (fun t => isEmpty t = false) (tail (splitSpace s))
  /\ (forall c r, s = String c r -> isWhiteSpace c = false ->
                  exists h t, splitSpace s = h :: t /\ isEmpty h = false).
Proof.
  induction s as [|c s IH]; intros b Hs Ht.
  - split; [constructor|discriminate].
  - pose proof (trimEnd_fixed_tail _ _ Ht) as Ht'. simpl in Hs. simpl splitSpace.
    destruct (isWhiteSpace c) eqn:Hw.
    + apply andb_true_iff in Hs as [Hs Hr]. apply andb_true_iff in Hs as [_ Hc].
      rewrite Hc. destruct (IH true Hr Ht') as [Htail Hhead].
      split; [|intros ? ? [= <- <-] Hn; congruence]. simpl.
      destruct s as [|d r].
      * simpl in Ht. rewrite Hw in Ht. discriminate.
      * simpl in Hr. destruct (isWhiteSpace d) eqn:Hd; [discriminate|].
        destruct (Hhead d r eq_refl Hd) as (h & t & E & Hh).
        rewrite E in *. simpl in Htail. now constructor.
    + assert (Hc : Ascii.eqb c " " = false).
      { destruct (Ascii.eqb c " ") eqn:E; [|reflexivity].
        apply Ascii.eqb_eq in E. subst c. discriminate Hw. }
      rewrite Hc. destruct (IH false Hs Ht') as [Htail _].
      destruct (splitSpace s) as [|h t] eqn:E; [now apply splitSpace_nonempty in E|].
      split; [exact Htail|]. intros ? ? _ _. eauto.
Qed.

Lemma filter_all {A} (f : A -> bool) l : Forall (fun x => f x = true) l -> List.filter f l = l.
Proof. induction 1 as [|x l Hx _ IH]; simpl; [reflexivity|]. now rewrite Hx, IH. Qed.

(** X4: the token split of a normalised string loses nothing: joining the
    tokens with single spaces gives the string back, no token is empty, and
    for a non-empty string [filter(Boolean)] removes nothing, so the token
    list is not empty. *)
Theorem tokens_join_normalizeText (value : string) :
  join " " (tokens (normalizeText value)) = normalizeText value
  /\ Forall (fun t => isEmpty t = false) (tokens (normalizeText value))
  /\ (isEmpty (normalizeText value) = false ->
      tokens (normalizeText value) = splitSpace (normalizeText value)
      /\ tokens (normalizeText value) <> []).
Proof.
  assert (Hne : isEmpty (normalizeText value) = false ->
                tokens (normalizeText value) = splitSpace (normalizeText value)).
  { intros Hne. destruct (normalizeText value) as [|c r] eqn:E; [discriminate|].
    rewrite <- E.
    pose proof (normalizeText_singleSpaced value) as Hs.
    assert (Hend : trimEnd (normalizeText value) = normalizeText value).
    { unfold normalizeText, trim. apply trimEnd_idem. }
    destruct (splitSpace_tokens _ false Hs Hend) as [Htail Hhead].
    destruct (Hhead c r E (normalizeText_head _ _ _ E)) as (h & t & Hsplit & Hh).
    unfold tokens. rewrite Hsplit in *. simpl in Htail. apply filter_all.
    constructor; [now rewrite Hh|].
    eapply Forall_impl; [exact Htail|]. simpl. now intros x ->. }
  split; [|split].
  - destruct (isEmpty (normalizeText value)) eqn:E.
    + destruct (normalizeText value); [reflexivity|discriminate].
    + rewrite (Hne eq_refl). apply join_splitSpace.
  - unfold tokens. apply List.Forall_forall. intros t Ht.
    apply filter_In in Ht as [_ Ht]. now destruct (isEmpty t).
  - intros Hfull. split; [now apply Hne|].
    rewrite (Hne Hfull). apply splitSpace_nonempty.
Qed.

(** ** The salvage of a JSON object *)

Lemma append_cons c (x y : string) : String c x +:+ y = String c (x +:+ y).
Proof. reflexivity. Qed.

Lemma append_assoc (x y z : string) : (x +:+ y) +:+ z = x +:+ (y +:+ z).
Proof.
  induction x as [|c x IH]; [reflexivity|]. rewrite !append_cons. now rewrite IH.
Qed.

Lemma fromFirstBrace_Some s t :
  fromFirstBrace s = Some t ->
  exists pre rest, s = pre +:+ t /\ t = String "{" rest /\ allChars notOpenBrace pre = true.
Proof.
  induction s as [|c s IH]; simpl; [discriminate|].
  destruct (Ascii.eqb c "{") eqn:Hc.
  - intros [= <-]. apply Ascii.eqb_eq in Hc. subst c. exists "", s. repeat split.
  - intros E. destruct (IH E) as (pre & rest & -> & -> & Hpre).
    exists (String c pre), rest. repeat split. simpl. unfold notOpenBrace at 1.
    now rewrite Hc, Hpre.
Qed.

Lemma uptoLastBrace_None s : uptoLastBrace s = None -> allChars notCloseBrace s = true.
Proof.
  induction s as [|c s IH]; simpl; [reflexivity|].
  destruct (uptoLastBrace s); [discriminate|].
  destruct (Ascii.eqb c "}") eqn:Hc; [discriminate|].
  intros _. unfold notCloseBrace at 1. now rewrite Hc, IH.
Qed.

Lemma uptoLastBrace_Some s : forall r,
  uptoLastBrace s = Some r ->
  exists r0 post, r = r0 +:+ "}" /\ s = r +:+ post /\ allChars notCloseBrace post = true.
Proof.
  induction s as [|c s IH]; simpl; [discriminate|]. intros r.
  destruct (uptoLastBrace s) as [r'|] eqn:E.
  - intros [= <-]. destruct (IH r' eq_refl) as (r0 & post & -> & -> & Hpost).
    exists (String c r0), post. repeat split. exact Hpost.
  - destruct (Ascii.eqb c "}") eqn:Hc; [|discriminate]. intros [= <-].
    apply Ascii.eqb_eq in Hc. subst c. exists "", s. repeat split.
    now apply uptoLastBrace_None.
Qed.

Lemma matchBraces_Some text m :
  matchBraces text = Some m ->
  exists pre body post,
    text = pre +:+ m +:+ post
    /\ m = String "{" (body +:+ "}")
    /\ allChars notOpenBrace pre = true
    /\ allChars notCloseBrace post = true.
Proof.
  unfold matchBraces. destruct (fromFirstBrace text) as [t|] eqn:Ht; [|discriminate].
  intros Hm. destruct (fromFirstBrace_Some _ _ Ht) as (pre & rest & -> & -> & Hpre).
  destruct (uptoLastBrace_Some _ _ Hm) as (r0 & post & -> & E & Hpost).
  destruct r0 as [|c body]; simpl in E; [discriminate E|].
  injection E as <- E. exists pre, body, post.
  split; [|auto]. simpl. now rewrite E.
Qed.

Lemma matchBraces_None text :
  matchBraces text = None ->
  forall pre rest, text = pre +:+ String "{" rest -> allChars notCloseBrace rest = true.
Proof.
  induction text as [|c s IH]; intros Hm pre rest E.
  - destruct pre; discriminate.
  - unfold matchBraces in Hm. simpl fromFirstBrace in Hm.
    destruct (Ascii.eqb c "{") eqn:Hc.
    + apply uptoLastBrace_None in Hm. rewrite E in Hm.
      rewrite allChars_app in Hm. apply andb_true_iff in Hm as [_ Hm].
      simpl in Hm. exact Hm.
    + destruct pre as [|d pre]; simpl in E.
      * injection E as -> _. simpl in Hc. discriminate.
      * injection E as -> E. now apply (IH Hm pre).
Qed.

Section Parse.
Context {World : Type} `{Runtime}.

(** X5: text that parses is returned as parsed; otherwise the parser is
    run on exactly the part from the first opening brace to the last closing
    brace after it, and [InvalidJson] is thrown when no closing brace follows
    the first opening one.  No service is called. *)
Theorem parsePotentialJson_salvage (text : string) (env : World * list Call) :
  (forall v, JSON_parse text = Some v ->
             parsePotentialJson text env = (Returned v, env))
  /\ (JSON_parse text = None ->
      (exists pre body post,
          text = pre +:+ String "{" (body +:+ "}") +:+ post
          /\ allChars notOpenBrace pre = true
          /\ allChars notCloseBrace post = true
          /\ parsePotentialJson text env =
             (match JSON_parse (String "{" (body +:+ "}")) with
              | Some v => Returned v
              | None => Thrown JsonSyntaxError
              end, env))
      \/ ((forall pre rest, text = pre +:+ String "{" rest ->
                            allChars notCloseBrace rest = true)
          /\ parsePotentialJson text env = (Thrown InvalidJson, env))).
Proof.
  unfold parsePotentialJson. split; [now intros v ->|]. intros ->.
  destruct (matchBraces text) as [m|] eqn:Hm.
  - left. destruct (matchBraces_Some _ _ Hm) as (pre & body & post & E & -> & Hpre & Hpost).
    exists pre, body, post. repeat split; auto.
    now destruct (JSON_parse _).
  - right. split; [now apply matchBraces_None|reflexivity].
Qed.

End Parse.

(** ** The best candidate and the two searches *)

Lemma pickBest_Some items requestedArtist best :
  pickBestTrackCandidate items requestedArtist = Some best ->
  In best items /\ (8 # 10 <= scoreOf requestedArtist best)%Q.
Proof.
  unfold pickBestTrackCandidate. destruct items as [|i0 rest] eqn:Hitems; [discriminate|].
  rewrite <- Hitems. clear Hitems.
  destruct (sortByScore (scoreItems items requestedArtist)) as [|b tl] eqn:Hsorted;
    [discriminate|].
  destruct (Qle_bool (8 # 10) (sc_score b)) eqn:Hthr; simpl; [|discriminate].
  intros [= <-].
  assert (Hin : In b (scoreItems items requestedArtist)).
  { eapply Permutation_in; [symmetry; apply sortByScore_perm|].
    rewrite Hsorted. now left. }
  unfold scoreItems in Hin. apply in_map_iff in Hin as (x & <- & Hx). simpl in *.
  split; [exact Hx|]. now apply Qle_bool_iff.
Qed.

Lemma pickBest_None items requestedArtist :
  pickBestTrackCandidate items requestedArtist = None ->
  forall x, In x items -> (scoreOf requestedArtist x < 8 # 10)%Q.
Proof.
  unfold pickBestTrackCandidate. destruct items as [|i0 rest] eqn:Hitems; [intros _ ? []|].
  rewrite <- Hitems. clear Hitems.
  pose proof (sortByScore_head (scoreItems items requestedArtist)) as Hhead.
  destruct (sortByScore (scoreItems items requestedArtist)) as [|b tl] eqn:Hsorted.
  - symmetry in Hhead. apply firstBest_None in Hhead.
    destruct items; [intros _ ? []|discriminate].
  - destruct (Qle_bool (8 # 10) (sc_score b)) eqn:Hthr; simpl; [discriminate|].
    intros _ x Hx. simpl in Hhead. symmetry in Hhead.
    destruct (firstBest_spec _ _ Hhead) as (_ & _ & _ & Hall & _).
    apply Qle_bool_false in Hthr. eapply Qle_lt_trans; [|exact Hthr].
    apply (Hall {| sc_item := x; sc_score := scoreOf requestedArtist x |}).
    unfold scoreItems.
    exact (in_map (fun item => {| sc_item := item;
                                  sc_score := getArtistConfidence (item_artists item)
                                                requestedArtist |}) _ _ Hx).
Qed.

Lemma maxScore_ge requested names name :
  In name names ->
  (scoreOneArtist requested name <=
   List.fold_right Qmax 0 (List.map (scoreOneArtist requested) names))%Q.
Proof.
  induction names as [|n names IH]; intros []; simpl.
  - subst. apply Q.le_max_l.
  - eapply Qle_trans; [now apply IH|apply Q.le_max_r].
Qed.

(** X6: an item one of whose artist names contains the requested artist,
    or is contained in it, after normalisation scores at least 0.92, so a
    result list holding such an item always yields a best candidate. *)
Theorem containment_is_accepted
    (items : list Item) (requestedArtist : string) (item : Item) (a : Artist) :
  In item items -> In a (item_artists item) ->
  isEmpty (normalizeText requestedArtist) = false ->
  isEmpty (normalizeText (artist_name a)) = false ->
  includes (normalizeText (artist_name a)) (normalizeText requestedArtist)
  || includes (normalizeText requestedArtist) (normalizeText (artist_name a)) = true ->
  (92 # 100 <= scoreOf requestedArtist item)%Q
  /\ exists best,
      pickBestTrackCandidate items requestedArtist = Some best
      /\ In best items
      /\ (8 # 10 <= scoreOf requestedArtist best)%Q.
Proof.
  intros Hitem Ha Hreq Hcand Hinc.
  assert (Hscore : (92 # 100 <= scoreOf requestedArtist item)%Q).
  { unfold scoreOf. rewrite getArtistConfidence_max. unfold scoreArtist_spec.
    rewrite Hreq.
    eapply Qle_trans; [|apply (maxScore_ge _ _ (artist_name a))].
    - unfold scoreOneArtist. destruct (String.eqb _ _); [discriminate|].
      rewrite Hinc. apply Qle_refl.
    - unfold namedArtists. apply filter_In. split; [now apply in_map|].
      now rewrite Hcand. }
  split; [exact Hscore|].
  destruct (pickBestTrackCandidate items requestedArtist) as [best|] eqn:Hpick.
  - exists best. split; [reflexivity|]. now apply pickBest_Some in Hpick.
  - exfalso. pose proof (pickBest_None _ _ Hpick item Hitem) as Hlow.
    apply (Qlt_irrefl (8 # 10)). eapply Qle_lt_trans; [|exact Hlow].
    eapply Qle_trans; [|exact Hscore]. discriminate.
Qed.

Section Finder.
Context {World : Type} `{Collaborators World}.

(** X7: [findSpotifyTrackUri] searches once or twice, the structured
    query first; a match it returns has a non-empty uri and comes from a best
    candidate of score at least 0.8; a failure of the first search reaches the
    caller after that one call, and a match of the first query ends the search
    without the second. *)
Theorem findSpotifyTrackUri_outcome (candidate : Candidate) (env : World * list Call) :
  (snd (snd (findSpotifyTrackUri candidate env)) =
     (snd env ++ [CallSpotify (Search (structuredQuery candidate))])%list
   \/ snd (snd (findSpotifyTrackUri candidate env)) =
     (snd env ++ [CallSpotify (Search (structuredQuery candidate));
                  CallSpotify (Search (looseQuery candidate))])%list)
  /\ (forall m env',
         findSpotifyTrackUri candidate env = (Returned (Some m), env') ->
         m_uri m <> EmptyString
         /\ exists items best,
             pickBestTrackCandidate items (artist candidate) = Some best
             /\ In best items
             /\ (8 # 10 <= scoreOf (artist candidate) best)%Q
             /\ m = {| m_uri := item_uri best; m_matchedName := matchedNameOf best |})
  /\ (forall f w,
         spotifyRequest (Search (structuredQuery candidate)) (fst env) = (inl f, w) ->
         findSpotifyTrackUri candidate env =
         (Thrown (SpotifyError f),
          (w, (snd env ++ [CallSpotify (Search (structuredQuery candidate))])%list)))
  /\ (forall reply w best,
         spotifyRequest (Search (structuredQuery candidate)) (fst env) = (inr reply, w) ->
         pickBestTrackCandidate (itemsOf reply) (artist candidate) = Some best ->
         item_uri best <> EmptyString ->
         findSpotifyTrackUri candidate env =
         (Returned (Some {| m_uri := item_uri best; m_matchedName := matchedNameOf best |}),
          (w, (snd env ++ [CallSpotify (Search (structuredQuery candidate))])%list))).
Proof.
  unfold findSpotifyTrackUri. fold (structuredQuery candidate) (looseQuery candidate).
  simpl findByQueries. unfold bind, callSpotify. simpl.
  destruct (spotifyRequest (Search (structuredQuery candidate)) (fst env))
    as [[f1|reply1] w1] eqn:Hq1; simpl.
  { split; [now left|]. split; [discriminate|]. split; [now intros ? ? [= <- <-]|].
    discriminate. }
  assert (Hok : forall best : Item,
             negb (isEmpty (item_uri best)) = true -> item_uri best <> EmptyString).
  { intros best Hb E. rewrite E in Hb. discriminate. }
  destruct (pickBestTrackCandidate (itemsOf reply1) (artist candidate)) as [best1|] eqn:Hp1;
    [destruct (negb (isEmpty (item_uri best1))) eqn:Hu1|].
  - split; [now left|]. split; [|split; [discriminate|]].
    + intros m env' [= <- <-]. split; [now apply Hok|].
      exists (itemsOf reply1), best1. destruct (pickBest_Some _ _ _ Hp1). auto.
    + intros reply w best [= <- <-] E _. rewrite Hp1 in E. now injection E as <-.
  - simpl.
    destruct (spotifyRequest (Search (looseQuery candidate)) w1)
      as [[f2|reply2] w2] eqn:Hq2; simpl.
    + split; [right; now rewrite <- app_assoc|]. split; [discriminate|].
      split; [discriminate|]. intros reply w best [= <- <-] E Hne.
      rewrite Hp1 in E. injection E as <-.
      destruct (item_uri best1); [contradiction|simpl in Hu1; discriminate].
    + assert (Hlog : ((snd env ++ [CallSpotify (Search (structuredQuery candidate))]) ++
                        [CallSpotify (Search (looseQuery candidate))])%list
                     = (snd env ++ [CallSpotify (Search (structuredQuery candidate));
                                    CallSpotify (Search (looseQuery candidate))])%list)
        by now rewrite <- app_assoc.
      destruct (pickBestTrackCandidate (itemsOf reply2) (artist candidate))
        as [best2|] eqn:Hp2; [destruct (negb (isEmpty (item_uri best2))) eqn:Hu2|];
        simpl; (split; [right; exact Hlog|]);
        (split; [|split; [discriminate|]]);
        try discriminate;
        try (intros reply w best [= <- <-] E Hne;
             rewrite Hp1 in E; injection E as <-;
             destruct (item_uri best1); [contradiction|simpl in Hu1; discriminate]).
      intros m env' [= <- <-]. split; [now apply Hok|].
      exists (itemsOf reply2), best2. destruct (pickBest_Some _ _ _ Hp2). auto.
  - simpl.
    destruct (spotifyRequest (Search (looseQuery candidate)) w1)
      as [[f2|reply2] w2] eqn:Hq2; simpl.
    + split; [right; now rewrite <- app_assoc|]. split; [discriminate|].
      split; [discriminate|]. intros reply w best [= <- <-] E. congruence.
    + assert (Hlog : ((snd env ++ [CallSpotify (Search (structuredQuery candidate))]) ++
                        [CallSpotify (Search (looseQuery candidate))])%list
                     = (snd env ++ [CallSpotify (Search (structuredQuery candidate));
                                    CallSpotify (Search (looseQuery candidate))])%list)
        by now rewrite <- app_assoc.
      destruct (pickBestTrackCandidate (itemsOf reply2) (artist candidate))
        as [best2|] eqn:Hp2; [destruct (negb (isEmpty (item_uri best2))) eqn:Hu2|];
        simpl; (split; [right; exact Hlog|]);
        (split; [|split; [discriminate|]]);
        try discriminate;
        try (intros reply w best [= <- <-] E; congruence).
      intros m env' [= <- <-]. split; [now apply Hok|].
      exists (itemsOf reply2), best2. destruct (pickBest_Some _ _ _ Hp2). auto.
Qed.

End Finder.

(** ** The books of the matching loop *)

Section Preservation.
Context {World : Type} `{Collaborators World} `{Runtime}.
Variable I : PoolState -> Prop.
Hypothesis I_step : forall candidate st env st' env',
  matchCandidate candidate st env = (Returned st', env') -> I st -> I st'.

Lemma matchCandidatesToSpotify_keeps candidates : forall st env st' env',
  matchCandidatesToSpotify candidates st env = (Returned st', env') -> I st -> I st'.
Proof using I_step.
  induction candidates as [|c rest IH]; intros st env st' env'; simpl.
  - now intros [= <- <-].
  - intros Hrun. apply bind_Returned in Hrun as (st1 & env1 & Hone & Hrest). eauto.
Qed.

Lemma expansionLoop_keeps description desiredCount fuel : forall attempt st env st' env',
  expansionLoop fuel description desiredCount attempt st env = (Returned st', env') ->
  I st -> I st'.
Proof using I_step.
  induction fuel as [|fuel IH]; intros attempt st env st' env'; simpl.
  - now intros [= <- <-].
  - destruct (_ && _); [|now intros [= <- <-]].
    intros Hrun. apply bind_Returned in Hrun as (st1 & env1 & Hround & Hrest).
    unfold expansionRound in Hround.
    apply bind_Returned in Hround as (generated & env0 & _ & Hmatch).
    intros Hst. eapply IH; [exact Hrest|].
    eapply matchCandidatesToSpotify_keeps; eauto.
Qed.

Lemma gatherMatches_keeps description desiredCount seedCandidates env st env' :
  gatherMatches description desiredCount seedCandidates env = (Returned st, env') ->
  I emptyPool -> I st.
Proof using I_step.
  unfold gatherMatches. intros Hrun Hempty.
  apply bind_Returned in Hrun as (st0 & env0 & Hseed & Hrun).
  apply bind_Returned in Hrun as (st1 & env1 & Hloop & Hfb).
  apply matchCandidatesToSpotify_keeps in Hseed; [|exact Hempty].
  apply expansionLoop_keeps in Hloop; [|exact Hseed].
  unfold fallback in Hfb. destruct (_ <? _).
  - eapply matchCandidatesToSpotify_keeps; eauto.
  - now injection Hfb as <- _.
Qed.

End Preservation.

Section Books.
Context {World : Type} `{Collaborators World} `{Runtime}.

Lemma matchCandidate_books candidate st env st' env' :
  matchCandidate candidate st env = (Returned st', env') -> poolBooks st -> poolBooks st'.
Proof.
  unfold matchCandidate. fold (keyOf candidate). case_bool_decide as Hkey.
  - now intros [= <- <-].
  - intros Hrun (Hused & Hnd & Hall).
    apply bind_Returned in Hrun as (found & env1 & _ & Hret).
    assert (Hfresh : ~ In (keyOf candidate) (List.map keyOf (settled st))).
    { intros Hin. apply in_map_iff in Hin as (c & Hc & Hin).
      rewrite List.Forall_forall in Hall. apply Hkey. rewrite <- Hc. now apply Hall. }
    assert (Hall' : Forall (fun c => keyOf c ∈ ({[keyOf candidate]} ∪ attemptedTrackKeys st))
                           (settled st)).
    { eapply Forall_impl; [exact Hall|]. simpl. intros c Hc.
      apply elem_of_union. now right. }
    assert (Hnew : keyOf candidate ∈ ({[keyOf candidate]} ∪ attemptedTrackKeys st)).
    { apply elem_of_union. left. now apply elem_of_singleton. }
    destruct (withUri found) as [m|]; [case_bool_decide as Hu|];
      injection Hret as <- <-; unfold poolBooks, settled in *; simpl.
    + auto.
    + split; [|split].
      * rewrite (List.map_app uri), list_to_set_app_L. simpl.
        rewrite Hused, union_empty_r_L. apply union_comm_L.
      * rewrite (List.map_app requested), <- app_assoc, (List.map_app keyOf). simpl.
        rewrite (List.map_app keyOf) in Hnd, Hfresh.
        apply NoDup_app in Hnd as (Hn1 & Hdisj & Hn2).
        apply NoDup_app. split; [exact Hn1|]. split.
        -- intros k Hk Hk'. apply elem_of_cons in Hk' as [->|Hk'].
           ++ apply Hfresh, in_or_app. left. now apply list_elem_of_In.
           ++ now apply (Hdisj k).
        -- apply NoDup_cons. split; [|exact Hn2].
           intros Hk. apply Hfresh, in_or_app. right. now apply list_elem_of_In.
      * rewrite (List.map_app requested), <- app_assoc. simpl.
        apply Forall_app in Hall' as [Ha1 Ha2].
        apply Forall_app. split; [exact Ha1|]. constructor; [exact Hnew|exact Ha2].
    + split; [exact Hused|]. split.
      * rewrite app_assoc, (List.map_app keyOf). simpl. apply NoDup_snoc; assumption.
      * rewrite app_assoc. apply Forall_app. split; [exact Hall'|].
        constructor; [exact Hnew|constructor].
Qed.

Lemma emptyPool_books : poolBooks emptyPool.
Proof. split; [reflexivity|]. split; simpl; constructor. Qed.

Lemma gatherMatches_books
    (description : string) (desiredCount : Z) (seedCandidates : list Candidate)
    (env : World * list Call) (st : PoolState) (env' : World * list Call) :
  gatherMatches description desiredCount seedCandidates env = (Returned st, env') ->
  poolBooks st.
Proof.
  intros Hrun.
  exact (gatherMatches_keeps poolBooks matchCandidate_books _ _ _ _ _ _ Hrun emptyPool_books).
Qed.

End Books.

Section Repeats.
Context {World : Type} `{Collaborators World} `{Runtime}.

(** X8: the matching loop skips a candidate whose track key was attempted
    before, in this call or an earlier one: the call returns the same result,
    with the same searches, as without that candidate. *)
Theorem repeated_key_is_skipped
    (earlier : list Candidate) (repeated : Candidate) (later : list Candidate)
    (st : PoolState) (env : World * list Call) :
  (keyOf repeated ∈ attemptedTrackKeys st
   \/ exists first, In first earlier /\ keyOf first = keyOf repeated) ->
  matchCandidatesToSpotify (earlier ++ repeated :: later) st env =
  matchCandidatesToSpotify (earlier ++ later) st env.
Proof. apply matchCandidatesToSpotify_skips_repeat. Qed.

End Repeats.

(** ** What a build returns and what it costs *)

Lemma In_take {A} (x : A) n l : In x (take n l) -> In x l.
Proof.
  intros Hx. apply list_elem_of_In, elem_of_take in Hx as (i & Hi & _).
  eapply list_elem_of_In, list_elem_of_lookup_2, Hi.
Qed.

Lemma lookup_In {A} (l : list A) i x : l !! i = Some x -> In x l.
Proof. intros Hi. eapply list_elem_of_In, list_elem_of_lookup_2, Hi. Qed.

Lemma In_slice0 {A} (x : A) l e : In x (slice0 l e) -> In x l.
Proof. unfold slice0. destruct (e <? 0); apply In_take. Qed.

(** Every returned entry is an entry of the pool or a clone of one. *)
Lemma finishPool_entries desiredCount st r :
  finishPool desiredCount st = Returned r ->
  res_unmatched r = st_unmatched st
  /\ forall m, In m (res_matched r) ->
               exists b, In b (st_matched st)
                         /\ requested m = requested b /\ uri m = uri b.
Proof.
  intros Hfin.
  destruct (Z.ltb_spec (Z.of_nat (length (st_matched st))) desiredCount) as [Hshort|Hfull].
  - destruct (st_matched st) as [|m0 rest] eqn:Hm.
    + assert (Hthrow : finishPool desiredCount st = Thrown (UnableToBuild 0 desiredCount)).
      { apply finishPool_Thrown. rewrite Hm. simpl in Hshort. auto. }
      congruence.
    + destruct (finishPool_fill desiredCount st) as (clones & Hres & _ & Hclones);
        [rewrite Hm; simpl; lia|now rewrite Hm|].
      rewrite Hres in Hfin. injection Hfin as <-. simpl. split; [reflexivity|].
      rewrite Hm in *. intros m Hin. apply in_app_or in Hin as [Hin|Hin]; [eauto|].
      apply list_elem_of_In, list_elem_of_lookup_1 in Hin as [k Hk].
      destruct (Hclones k) as (b & Hb & Hck & _); [eapply lookup_lt_Some, Hk|].
      exists b. split; [exact (lookup_In _ _ _ Hb)|].
      rewrite Hck in Hk. injection Hk as <-. now split.
  - unfold finishPool, duplicateFill in Hfin.
    replace (Z.of_nat (length (st_matched st)) <? desiredCount) with false in Hfin
      by (symmetry; lia).
    simpl in Hfin.
    replace (Z.of_nat (length (st_matched st)) <? desiredCount) with false in Hfin
      by (symmetry; lia).
    injection Hfin as <-. simpl. split; [reflexivity|].
    intros m Hin. apply In_slice0 in Hin. eauto.
Qed.

Section Run.
Context {World : Type} `{Collaborators World} `{Runtime}.

Lemma expansionLoop_done description desiredCount fuel attempt st env :
  desiredCount <= Z.of_nat (length (st_matched st)) ->
  expansionLoop fuel description desiredCount attempt st env = (Returned st, env).
Proof.
  intros Hfull. destruct fuel; simpl; [reflexivity|]. unfold matchedLength.
  now replace (Z.of_nat (length (st_matched st)) <? desiredCount) with false
    by (symmetry; lia).
Qed.

(** X9: in the result of a build no two unmatched candidates share a
    track key, no matched entry shares its key with an unmatched candidate,
    and matched entries with the same key have the same uri (one is a
    duplicate fill of the other). *)
Theorem matched_and_unmatched_apart
    (description : string) (desiredCount : Z) (seedCandidates : list Candidate)
    (env : World * list Call) (r : PoolResult) (env' : World * list Call) :
  buildMatchedTrackPool description desiredCount seedCandidates env = (Returned r, env') ->
  NoDup (List.map keyOf (res_unmatched r))
  /\ (forall m u, In m (res_matched r) -> In u (res_unmatched r) ->
                  keyOf (requested m) <> keyOf u)
  /\ (forall m1 m2, In m1 (res_matched r) -> In m2 (res_matched r) ->
                    keyOf (requested m1) = keyOf (requested m2) -> uri m1 = uri m2).
Proof.
  intros Hrun. unfold buildMatchedTrackPool in Hrun.
  apply bind_Returned in Hrun as (st & env1 & Hgather & Hfin).
  unfold liftOutcome in Hfin. injection Hfin as Hfin _.
  destruct (gatherMatches_books _ _ _ _ _ _ Hgather) as (_ & Hnd & _).
  destruct (finishPool_entries _ _ _ Hfin) as [-> Hentries].
  unfold settled in Hnd. rewrite (List.map_app keyOf) in Hnd.
  apply NoDup_app in Hnd as (Hn1 & Hdisj & Hn2).
  split; [exact Hn2|]. split.
  - intros m u Hm Hu E. destruct (Hentries m Hm) as (b & Hb & Hreq & _).
    apply (Hdisj (keyOf u)).
    + rewrite <- E, Hreq. apply list_elem_of_In, in_map, in_map, Hb.
    + apply list_elem_of_In, in_map, Hu.
  - intros m1 m2 Hm1 Hm2 E.
    destruct (Hentries m1 Hm1) as (b1 & Hb1 & Hreq1 & ->).
    destruct (Hentries m2 Hm2) as (b2 & Hb2 & Hreq2 & ->).
    rewrite Hreq1, Hreq2 in E.
    apply list_elem_of_In, list_elem_of_lookup_1 in Hb1 as [i Hi].
    apply list_elem_of_In, list_elem_of_lookup_1 in Hb2 as [j Hj].
    assert (Hij : i = j).
    { apply (NoDup_lookup _ i j (keyOf (requested b1)) Hn1).
      - change (List.map keyOf (List.map requested (st_matched st)))
          with (keyOf <$> (requested <$> st_matched st)).
        now rewrite !list_lookup_fmap, Hi.
      - change (List.map keyOf (List.map requested (st_matched st)))
          with (keyOf <$> (requested <$> st_matched st)).
        now rewrite !list_lookup_fmap, Hj, E. }
    subst j. congruence.
Qed.

(** X10: when matching the seed candidates alone gives at least the desired
    number of entries, the build returns the first [desiredCount] of them
    with no duplicate fill, and asks the generator for nothing. *)
Theorem seeds_suffice
    (description : string) (desiredCount : Z) (seedCandidates : list Candidate)
    (env : World * list Call) (st0 : PoolState) (env0 : World * list Call) :
  matchCandidatesToSpotify seedCandidates emptyPool env = (Returned st0, env0) ->
  desiredCount <= Z.of_nat (length (st_matched st0)) ->
  buildMatchedTrackPool description desiredCount seedCandidates env =
  (Returned {| res_matched := slice0 (st_matched st0) desiredCount;
               res_unmatched := st_unmatched st0;
               duplicateFillCount := 0 |}, env0)
  /\ countOpenAI (snd env0) = countOpenAI (snd env).
Proof.
  intros Hseed Hfull. split.
  - unfold buildMatchedTrackPool, gatherMatches, bind. rewrite Hseed.
    rewrite expansionLoop_done by exact Hfull.
    unfold fallback, matchedLength, ret, liftOutcome, finishPool, duplicateFill.
    replace (Z.of_nat (length (st_matched st0)) <? desiredCount) with false
      by (symmetry; lia).
    simpl.
    replace (Z.of_nat (length (st_matched st0)) <? desiredCount) with false
      by (symmetry; lia).
    simpl.
    replace (Z.of_nat (length (st_matched st0)) <? desiredCount) with false
      by (symmetry; lia).
    reflexivity.
  - destruct (matchCandidatesToSpotify_searches seedCandidates emptyPool env)
      as [(t & Ht & Hs) _].
    rewrite Hseed in Ht. simpl in Ht. rewrite Ht, countOpenAI_app.
    destruct (searches_within _ Hs) as [Hz _]. lia.
Qed.

End Run.

Lemma countSearches_app t1 t2 :
  countSearches (t1 ++ t2) = (countSearches t1 + countSearches t2)%nat.
Proof. unfold countSearches. now rewrite List.filter_app, length_app. Qed.

Section Budget.
Context {World : Type} `{Collaborators World} `{Runtime}.

Lemma searchesAtMost_ret {A} (a : A) : searchesAtMost 0 (@ret World A a).
Proof. intros env. simpl. lia. Qed.

Lemma searchesAtMost_le {A} n n' (m : M World A) :
  (n <= n')%nat -> searchesAtMost n m -> searchesAtMost n' m.
Proof. intros Hle Hm env. specialize (Hm env). lia. Qed.

Lemma searchesAtMost_bind {A B} n1 n2 (m : M World A) (k : A -> M World B) :
  searchesAtMost n1 m ->
  (forall a env env', m env = (Returned a, env') ->
     (countSearches (snd (snd (k a env'))) <= countSearches (snd env') + n2)%nat) ->
  searchesAtMost (n1 + n2) (bind m k).
Proof.
  intros Hm Hk env. unfold bind. specialize (Hm env).
  destruct (m env) as [[a|e] env1] eqn:Hrun; simpl in *.
  - specialize (Hk a env env1 Hrun). lia.
  - lia.
Qed.

Lemma callSpotify_searchesAtMost c : searchesAtMost 1 (callSpotify c).
Proof.
  intros env. unfold callSpotify.
  destruct (spotifyRequest c (fst env)) as [r w]. simpl.
  rewrite countSearches_app. unfold countSearches at 2. simpl.
  destruct c; simpl; lia.
Qed.

Lemma findByQueries_searchesAtMost queries artist :
  searchesAtMost (length queries) (findByQueries queries artist).
Proof.
  induction queries as [|query rest IH]; simpl; [apply searchesAtMost_ret|].
  apply (searchesAtMost_bind 1 (length rest)); [apply callSpotify_searchesAtMost|].
  intros data _ env' _.
  destruct (pickBestTrackCandidate _ _); [destruct (negb _)|]; try apply IH.
  simpl. lia.
Qed.

Lemma matchCandidate_searchesAtMost candidate st :
  searchesAtMost 2 (matchCandidate candidate st).
Proof.
  unfold matchCandidate. case_bool_decide.
  - eapply searchesAtMost_le; [|apply searchesAtMost_ret]. lia.
  - apply (searchesAtMost_bind 2 0); [apply (findByQueries_searchesAtMost [_; _])|].
    intros found _ env' _.
    destruct (withUri found); [case_bool_decide|]; simpl; lia.
Qed.

Lemma matchCandidatesToSpotify_searchesAtMost candidates : forall st,
  searchesAtMost (2 * length candidates) (matchCandidatesToSpotify candidates st).
Proof.
  induction candidates as [|c rest IH]; intros st; [apply searchesAtMost_ret|].
  simpl matchCandidatesToSpotify.
  replace (2 * length (c :: rest))%nat with (2 + 2 * length rest)%nat by (simpl; lia).
  apply searchesAtMost_bind; [apply matchCandidate_searchesAtMost|].
  intros st1 _ env' _. apply IH.
Qed.

(** A generation adds no search and returns at most [trackCount]
    candidates. *)
Lemma generateTracklist_yield description trackCount excludedTracks env :
  0 <= trackCount ->
  countSearches (snd (snd (generateTracklist description trackCount excludedTracks env)))
  = countSearches (snd env)
  /\ forall generated env',
       generateTracklist description trackCount excludedTracks env = (Returned generated, env') ->
       Z.of_nat (length generated) <= trackCount.
Proof.
  intros Hpos. split.
  - destruct (generateTracklist_one description trackCount excludedTracks env)
      as [(t & -> & ->) _].
    rewrite countSearches_app. unfold countSearches at 2. simpl. lia.
  - intros generated env' Hrun. unfold generateTracklist in Hrun.
    apply bind_Returned in Hrun as (content & env1 & _ & Hrun).
    apply bind_Returned in Hrun as (parsed & env2 & _ & Hrun).
    apply bind_Returned in Hrun as (tracks & env3 & _ & Hrun).
    destruct tracks as [| | | | |elems|]; try discriminate.
    destruct (length elems =? 0)%nat; [discriminate|].
    injection Hrun as <- _.
    now destruct (postFilter_facts elems trackCount Hpos) as (_ & Hlen & _).
Qed.

Lemma expansionRound_searchesAtMost description desiredCount st :
  searchesAtMost 100 (expansionRound description desiredCount st).
Proof.
  unfold expansionRound. intros env. unfold bind.
  pose proof (generateCountFor_range desiredCount st) as Hrange.
  destruct (generateTracklist_yield description (generateCountFor desiredCount st)
              (excludedTracksFor st) env) as [Hsame Hlen]; [lia|].
  destruct (generateTracklist _ _ _ env) as [[generated|e] env1] eqn:Hgen; simpl in *.
  - specialize (Hlen generated env1 eq_refl).
    pose proof (matchCandidatesToSpotify_searchesAtMost generated st env1). lia.
  - lia.
Qed.

Lemma expansionLoop_searchesAtMost description desiredCount fuel : forall attempt st,
  searchesAtMost (100 * fuel) (expansionLoop fuel description desiredCount attempt st).
Proof.
  induction fuel as [|fuel IH]; intros attempt st; [apply searchesAtMost_ret|].
  simpl expansionLoop. destruct (_ && _).
  - replace (100 * S fuel)%nat with (100 + 100 * fuel)%nat by lia.
    apply searchesAtMost_bind; [apply expansionRound_searchesAtMost|].
    intros st1 _ env' _. apply IH.
  - eapply searchesAtMost_le; [|apply searchesAtMost_ret]. lia.
Qed.

Lemma fallback_searchesAtMost desiredCount st :
  searchesAtMost 20 (fallback desiredCount st).
Proof.
  unfold fallback. destruct (_ <? _).
  - apply (matchCandidatesToSpotify_searchesAtMost EMERGENCY_FALLBACK_TRACKS).
  - eapply searchesAtMost_le; [|apply searchesAtMost_ret]. lia.
Qed.

(** X11: however a build ends, it has made at most two searches per seed
    candidate, 800 for the candidates of its eight generations and 20 for
    the fallback list. *)
Theorem buildMatchedTrackPool_search_budget
    (description : string) (desiredCount : Z) (seedCandidates : list Candidate)
    (env : World * list Call) :
  (countSearches (snd (snd (buildMatchedTrackPool description desiredCount seedCandidates env)))
   <= countSearches (snd env) + 2 * length seedCandidates + 820)%nat.
Proof.
  assert (Hgather : searchesAtMost (2 * length seedCandidates + (800 + 20))
                      (gatherMatches description desiredCount seedCandidates)).
  { unfold gatherMatches.
    apply searchesAtMost_bind; [apply matchCandidatesToSpotify_searchesAtMost|].
    intros st0 _ env0 _.
    apply (searchesAtMost_bind 800 20);
      [apply (expansionLoop_searchesAtMost description desiredCount 8)|].
    intros st1 _ env1 _. apply fallback_searchesAtMost. }
  unfold buildMatchedTrackPool, bind, liftOutcome. specialize (Hgather env).
  destruct (gatherMatches _ _ _ env) as [[st|e] env1]; simpl in *; lia.
Qed.

End Budget.

(** ** Creating the playlist *)

Section Batches.
Context {World : Type} `{Collaborators World} `{Runtime}.

Lemma addInBatches_step fuel playlist u rest :
  addInBatches (S fuel) playlist (u :: rest) =
  (_ <- callSpotify (AddItems playlist (take 100 (u :: rest))) ;;
   addInBatches fuel playlist (drop 100 (u :: rest)) : M World unit).
Proof. reflexivity. Qed.

(** X12: the batch loop sends the uris in order, in batches of 1 to 100,
    none of them empty; the batches sent are a prefix of the uris, and all of
    them when the loop returns. *)
Theorem addInBatches_batches (playlist : string) (fuel : nat) :
  forall (uris : list string) (env : World * list Call),
  (length uris <= fuel)%nat ->
  exists batches,
    snd (snd (addInBatches fuel playlist uris env))
    = (snd env ++ addItemsCalls playlist batches)%list
    /\ Forall (fun batch => (0 < length batch <= 100)%nat) batches
    /\ (exists rest, uris = (concat batches ++ rest)%list)
    /\ (forall u env', addInBatches fuel playlist uris env = (Returned u, env') ->
                       concat batches = uris).
Proof.
  induction fuel as [|fuel IH]; intros uris env Hfuel.
  - destruct uris; [|simpl in Hfuel; lia]. exists []. simpl.
    rewrite app_nil_r. repeat split; [constructor|now exists []].
  - destruct uris as [|u rest].
    { exists []. simpl. rewrite app_nil_r. repeat split; [constructor|now exists []]. }
    rewrite addInBatches_step. unfold bind.
    set (batch := take 100 (u :: rest)).
    assert (Hbatch : (0 < length batch <= 100)%nat).
    { unfold batch. rewrite length_take. simpl length. lia. }
    assert (Hsplit : (u :: rest) = (batch ++ drop 100 (u :: rest))%list)
      by (symmetry; apply take_drop).
    destruct (callSpotify (AddItems playlist batch) env) as [[reply|e] env1] eqn:Hcall.
    + assert (Hlog : snd env1 = (snd env ++ [CallSpotify (AddItems playlist batch)])%list).
      { unfold callSpotify in Hcall.
        destruct (spotifyRequest _ (fst env)) as [r w]. now injection Hcall as _ <-. }
      destruct (IH (drop 100 (u :: rest)) env1) as (batches & Ht & Hall & [more Hmore] & Hret).
      { rewrite length_drop. simpl in *. lia. }
      exists (batch :: batches). split; [|split; [|split]].
      * rewrite Ht, Hlog, <- app_assoc. reflexivity.
      * now constructor.
      * exists more. simpl. rewrite <- app_assoc, <- Hmore. exact Hsplit.
      * intros v env' Hrun. simpl. rewrite (Hret v env' Hrun). now symmetry.
    + exists [batch]. simpl. split; [|split; [|split]].
      * unfold callSpotify in Hcall.
        destruct (spotifyRequest _ (fst env)) as [r w]. now injection Hcall as _ <-.
      * constructor; [exact Hbatch|constructor].
      * exists (drop 100 (u :: rest)). now rewrite app_nil_r.
      * discriminate.
Qed.

Lemma addInBatches_errors playlist fuel : forall uris (env : World * list Call) e env',
  addInBatches fuel playlist uris env = (Thrown e, env') -> isSpotifyError e.
Proof.
  induction fuel as [|fuel IH]; intros uris env e env'; [discriminate|].
  destruct uris as [|u rest]; [discriminate|].
  rewrite addInBatches_step. intros Hrun.
  apply bind_Thrown in Hrun as [Hcall|(x & env1 & _ & Hrest)]; [|eapply IH, Hrest].
  unfold callSpotify in Hcall.
  destruct (spotifyRequest _ (fst env)) as [[f|y] w]; [|discriminate].
  now injection Hcall as <- _.
Qed.

Lemma readsOnly_search t : Forall isSearch t -> Forall readsOnly t.
Proof.
  intros Hs. eapply Forall_impl; [exact Hs|]. intros [[q| |]|r]; simpl; auto.
Qed.

Lemma matchCandidatesToSpotify_readsOnly candidates st :
  emits (Forall readsOnly) (fun _ => True) (matchCandidatesToSpotify candidates st).
Proof.
  eapply emits_weaken; [apply matchCandidatesToSpotify_searches|apply readsOnly_search|auto].
Qed.

Lemma generateTracklist_readsOnly description trackCount excludedTracks :
  emits (Forall readsOnly) (fun _ => True)
        (generateTracklist description trackCount excludedTracks).
Proof.
  eapply emits_weaken; [apply generateTracklist_one| |auto].
  intros t ->. now repeat constructor.
Qed.

Lemma readsOnly_bind {A B} (m : M World A) (k : A -> M World B) :
  emits (Forall readsOnly) (fun _ => True) m ->
  (forall a, emits (Forall readsOnly) (fun _ => True) (k a)) ->
  emits (Forall readsOnly) (fun _ => True) (bind m k).
Proof.
  intros Hm Hk. apply (emits_bind _ _ _ _ _ _ Hm Hk); [auto|].
  intros t1 t2 H1 H2. apply Forall_app. now split.
Qed.

Lemma expansionLoop_readsOnly description desiredCount fuel : forall attempt st,
  emits (Forall readsOnly) (fun _ => True)
        (expansionLoop fuel description desiredCount attempt st).
Proof.
  induction fuel as [|fuel IH]; intros attempt st; simpl; [now apply emits_ret|].
  destruct (_ && _); [|now apply emits_ret].
  apply readsOnly_bind; [|intros st1; apply IH].
  unfold expansionRound. apply readsOnly_bind; [apply generateTracklist_readsOnly|].
  intros generated. apply matchCandidatesToSpotify_readsOnly.
Qed.

Lemma buildMatchedTrackPool_readsOnly description desiredCount seedCandidates :
  emits (Forall readsOnly) (fun _ => True)
        (buildMatchedTrackPool description desiredCount seedCandidates).
Proof.
  unfold buildMatchedTrackPool, gatherMatches.
  apply readsOnly_bind.
  - apply readsOnly_bind; [apply matchCandidatesToSpotify_readsOnly|]. intros st0.
    apply readsOnly_bind; [apply expansionLoop_readsOnly|]. intros st1.
    unfold fallback. destruct (_ <? _); [apply matchCandidatesToSpotify_readsOnly|].
    now apply emits_ret.
  - intros st env. unfold liftOutcome. simpl. split; [|auto].
    exists []. now rewrite app_nil_r.
Qed.

Lemma seedsFor_readsOnly description count approvedTracks :
  emits (Forall readsOnly) (fun _ => True) (seedsFor description count approvedTracks).
Proof.
  unfold seedsFor. destruct (_ =? _)%nat; [apply generateTracklist_readsOnly|].
  now apply emits_ret.
Qed.

(** The pool a build returns for a count of at least 0 has exactly that
    many entries. *)
Lemma buildMatchedTrackPool_length description desiredCount seedCandidates env pool env' :
  0 <= desiredCount ->
  buildMatchedTrackPool description desiredCount seedCandidates env = (Returned pool, env') ->
  Z.of_nat (length (res_matched pool)) = desiredCount.
Proof.
  intros Hpos Hrun. unfold buildMatchedTrackPool in Hrun.
  apply bind_Returned in Hrun as (st & env1 & Hgather & Hfin).
  unfold liftOutcome in Hfin. injection Hfin as Hfin _.
  apply gatherMatches_inv in Hgather.
  now destruct (finishPool_Returned _ _ _ Hpos Hgather Hfin).
Qed.

(** X13: a result of [createPlaylistFromInputs] comes after exactly one
    playlist creation, under the effective name, followed by exactly one
    batch holding the uris of all matched entries, 5 to 50 of them; every
    earlier call is a search or a generation.  When the build fails for lack
    of tracks, no playlist was created and nothing was added. *)
Theorem createPlaylistFromInputs_writes
    (inputs : PlaylistInputs) (env : World * list Call) :
  (forall r env',
      createPlaylistFromInputs inputs env = (Returned r, env') ->
      exists reads,
        snd env' =
        (snd env ++ reads ++
           [ CallSpotify (CreatePlaylist (effectiveName r) (truthy (in_isPublic inputs))
                            ("Generated from prompt: "
                               +:+ String.substring 0 250 (in_description inputs)));
             CallSpotify (AddItems (playlistId r) (List.map uri (pl_matched r))) ])%list
        /\ Forall readsOnly reads
        /\ effectiveName r = effectiveNameOf (in_folderName inputs) (in_playlistName inputs)
        /\ trackCountCreated r = Z.of_nat (length (pl_matched r))
        /\ 5 <= trackCountCreated r <= 50)
  /\ (forall achieved desired env',
         createPlaylistFromInputs inputs env = (Thrown (UnableToBuild achieved desired), env') ->
         exists reads, snd env' = (snd env ++ reads)%list /\ Forall readsOnly reads).
Proof.
  unfold createPlaylistFromInputs.
  destruct (clampTrackCount_finite (orDefault (in_trackCount inputs) (JNum (Fin 20))))
    as (count & -> & Hcount).
  simpl intValue.
  set (approved := orDefault (in_approvedTracks inputs) (JArr [])).
  destruct (seedsFor_readsOnly (in_description inputs) count approved env)
    as [(t1 & Ht1 & Hr1) _].
  split.
  - intros r env' Hrun.
    apply bind_Returned in Hrun as (seedCandidates & env1 & Hseeds & Hrun).
    apply bind_Returned in Hrun as (pool & env2 & Hpool & Hrun).
    rewrite Hseeds in Ht1. simpl in Ht1.
    destruct (buildMatchedTrackPool_readsOnly (in_description inputs) count seedCandidates env1)
      as [(t2 & Ht2 & Hr2) _].
    rewrite Hpool in Ht2. simpl in Ht2.
    assert (Hpos : 0 <= count) by lia.
    pose proof (buildMatchedTrackPool_length _ _ _ _ _ _ Hpos Hpool) as Hlen.
    unfold materialize in Hrun.
    apply bind_Returned in Hrun as (reply & env3 & Hcreate & Hrun).
    assert (Hlog3 : snd env3 =
                    (snd env2 ++
                       [CallSpotify
                          (CreatePlaylist
                             (effectiveNameOf (in_folderName inputs) (in_playlistName inputs))
                             (truthy (in_isPublic inputs))
                             ("Generated from prompt: "
                                +:+ String.substring 0 250 (in_description inputs)))])%list).
    { unfold callSpotify in Hcreate.
      destruct (spotifyRequest _ (fst env2)) as [x w]. now injection Hcreate as _ <-. }
    destruct reply as [items|created|]; try discriminate.
    apply bind_Returned in Hrun as (u & env4 & Hadd & Hret).
    injection Hret as <- <-. simpl.
    set (uris := List.map uri (res_matched pool)) in *.
    assert (Hn : (0 < length uris <= 100)%nat).
    { unfold uris. rewrite length_map. lia. }
    destruct uris as [|u0 more] eqn:Huris; [simpl in Hn; lia|].
    simpl in Hadd. unfold bind in Hadd.
    rewrite take_ge in Hadd by (simpl in *; lia).
    rewrite drop_ge in Hadd by (simpl in *; lia).
    destruct (callSpotify (AddItems (created_id created) (u0 :: more)) env3)
      as [[reply|e] env5] eqn:Hcall; [|discriminate].
    assert (Hlog5 : snd env5 =
                    (snd env3 ++ [CallSpotify (AddItems (created_id created) (u0 :: more))])%list).
    { unfold callSpotify in Hcall.
      destruct (spotifyRequest _ (fst env3)) as [x w]. now injection Hcall as _ <-. }
    assert (env4 = env5) as -> by (destruct more; simpl in Hadd; unfold ret in Hadd; congruence).
    exists (t1 ++ t2)%list. split; [|split; [|split; [|split]]].
    + rewrite Hlog5, Hlog3, Ht2, Ht1, <- !app_assoc. reflexivity.
    + apply Forall_app. now split.
    + reflexivity.
    + unfold uris in Huris. now rewrite <- Huris, length_map.
    + unfold uris in Huris. rewrite <- Huris, length_map. lia.
  - intros achieved desired env' Hrun.
    apply bind_Thrown in Hrun as [Hseeds|(seedCandidates & env1 & Hseeds & Hrun)].
    { rewrite Hseeds in Ht1. simpl in Ht1. eauto. }
    rewrite Hseeds in Ht1. simpl in Ht1.
    destruct (buildMatchedTrackPool_readsOnly (in_description inputs) count seedCandidates env1)
      as [(t2 & Ht2 & Hr2) _].
    apply bind_Thrown in Hrun as [Hpool|(pool & env2 & Hpool & Hrun)].
    { rewrite Hpool in Ht2. simpl in Ht2. exists (t1 ++ t2)%list.
      split; [now rewrite Ht2, Ht1, <- app_assoc|apply Forall_app; now split]. }
    exfalso. unfold materialize in Hrun.
    apply bind_Thrown in Hrun as [Hcreate|(reply & env3 & Hcreate & Hrun)].
    { unfold callSpotify in Hcreate.
      destruct (spotifyRequest _ (fst env2)) as [[f|x] w]; discriminate. }
    destruct reply as [items|created|]; try discriminate.
    apply bind_Thrown in Hrun as [Hadd|(u & env4 & _ & Hret)]; [|discriminate].
    now apply addInBatches_errors in Hadd.
Qed.

End Batches.

(** ** The two preview loops *)

Lemma previewBooks_push st m :
  previewBooks st -> uri m ∉ pv_usedUris st ->
  list_to_set (List.map uri (pv_matched st ++ [m])) = ({[ uri m ]} ∪ pv_usedUris st : gset string)
  /\ NoDup (List.map uri (pv_matched st ++ [m])).
Proof.
  intros [Hused Hnd] Hnew. rewrite (List.map_app uri). simpl. split.
  - rewrite list_to_set_app_L. simpl. rewrite Hused, union_empty_r_L. apply union_comm_L.
  - apply NoDup_snoc; [exact Hnd|].
    intros Hin. apply Hnew. rewrite Hused. apply elem_of_list_to_set.
    now apply list_elem_of_In.
Qed.

Section Previews.
Context {World : Type} `{Collaborators World} `{Runtime}.

Lemma previewCandidates_rows candidates : forall (st : PreviewState) env st' env',
  previewCandidates candidates st env = (Returned st', env') ->
  exists rows fresh,
    pv_rows st' = (pv_rows st ++ rows)%list
    /\ pv_matched st' = (pv_matched st ++ fresh)%list
    /\ List.map row_requested rows = candidates
    /\ pv_unmatched st' = (pv_unmatched st ++ List.map row_requested (missedRows rows))%list
    /\ sublist (List.map requested fresh) (List.map row_requested (matchedRows rows))
    /\ Forall rowConsistent rows
    /\ (previewBooks st -> previewBooks st').
Proof.
  induction candidates as [|c rest IH]; intros st env st' env'; simpl.
  - intros [= <- <-]. exists [], []. rewrite !app_nil_r.
    split_and!; auto.
  - intros Hrun. apply bind_Returned in Hrun as (st1 & env1 & Hone & Hrest).
    destruct (IH _ _ _ _ Hrest) as (rows & fresh & Hrows & Hm & Hreq & Hun & Hsub & Hcons & Hbooks).
    unfold previewCandidate in Hone.
    apply bind_Returned in Hone as (found & env0 & _ & Hret).
    destruct (withUri found) as [m|]; [case_bool_decide as Hu|];
      injection Hret as <- _; simpl in *.
    + eexists (_ :: rows), fresh. rewrite Hrows, Hm, Hun, <- !app_assoc. simpl.
      split_and!; try reflexivity.
      * now rewrite Hreq.
      * now apply sublist_cons.
      * constructor; [reflexivity|exact Hcons].
      * exact Hbooks.
    + eexists (_ :: rows), (_ :: fresh). rewrite Hrows, Hm, Hun, <- !app_assoc. simpl.
      split_and!; try reflexivity.
      * now rewrite Hreq.
      * now apply sublist_skip.
      * constructor; [reflexivity|exact Hcons].
      * intros Hb. apply Hbooks.
        destruct (previewBooks_push st
                    {| requested := c; matched := m_matchedName m; uri := m_uri m;
                       duplicated := false |} Hb Hu) as [Hset Hnd].
        split; simpl; [now rewrite Hset|exact Hnd].
    + eexists (_ :: rows), fresh. rewrite Hrows, Hm, Hun, <- !app_assoc. simpl.
      split_and!; try reflexivity.
      * now rewrite Hreq.
      * exact Hsub.
      * constructor; [reflexivity|exact Hcons].
      * exact Hbooks.
Qed.

(** X15: the preview loop writes one row per candidate, in order; the
    unmatched list is the candidates of the rows marked unmatched, the matched
    list holds distinct uris and is drawn, in order, from the rows marked
    matched (a candidate resolved to a uri already used has a matched row but
    no entry), and a row is marked matched exactly when it carries a name. *)
Theorem preview_accounting
    (candidates : list Candidate) (env : World * list Call)
    (st : PreviewState) (env' : World * list Call) :
  previewCandidates candidates emptyPreview env = (Returned st, env') ->
  List.map row_requested (pv_rows st) = candidates
  /\ pv_unmatched st = List.map row_requested (missedRows (pv_rows st))
  /\ sublist (List.map requested (pv_matched st))
             (List.map row_requested (matchedRows (pv_rows st)))
  /\ NoDup (List.map uri (pv_matched st))
  /\ Forall rowConsistent (pv_rows st).
Proof.
  intros Hrun.
  destruct (previewCandidates_rows _ _ _ _ _ Hrun)
    as (rows & fresh & Hrows & Hm & Hreq & Hun & Hsub & Hcons & Hbooks).
  simpl in *. subst rows fresh.
  destruct Hbooks as [_ Hnd]; [split; [reflexivity|constructor]|].
  auto.
Qed.

Lemma slackCandidates_rows candidates : forall (st : PreviewState) env st' env',
  slackCandidates candidates st env = (Returned st', env') ->
  exists rows fresh,
    pv_rows st' = (pv_rows st ++ rows)%list
    /\ pv_matched st' = (pv_matched st ++ fresh)%list
    /\ List.map row_requested rows = candidates
    /\ pv_unmatched st' = (pv_unmatched st ++ List.map row_requested (missedRows rows))%list
    /\ List.map requested fresh = List.map row_requested (matchedRows rows)
    /\ List.map (fun m => Some (matched m)) fresh = List.map row_matchedName (matchedRows rows)
    /\ Forall rowConsistent rows
    /\ (previewBooks st -> previewBooks st').
Proof.
  induction candidates as [|c rest IH]; intros st env st' env'; simpl.
  - intros [= <- <-]. exists [], []. rewrite !app_nil_r.
    split_and!; auto.
  - intros Hrun. apply bind_Returned in Hrun as (st1 & env1 & Hone & Hrest).
    destruct (IH _ _ _ _ Hrest)
      as (rows & fresh & Hrows & Hm & Hreq & Hun & Hsame & Hnames & Hcons & Hbooks).
    unfold slackCandidate in Hone.
    apply bind_Returned in Hone as (found & env0 & _ & Hret).
    destruct (withUri found) as [m|]; [case_bool_decide as Hu|];
      injection Hret as <- _; simpl in *.
    + eexists (_ :: rows), fresh. rewrite Hrows, Hm, Hun, <- !app_assoc. simpl.
      split_and!; try reflexivity; try assumption.
      * now rewrite Hreq.
      * constructor; [reflexivity|exact Hcons].
    + eexists (_ :: rows), (_ :: fresh). rewrite Hrows, Hm, Hun, <- !app_assoc. simpl.
      split_and!; try reflexivity.
      * now rewrite Hreq.
      * now rewrite Hsame.
      * now rewrite Hnames.
      * constructor; [reflexivity|exact Hcons].
      * intros Hb. apply Hbooks.
        destruct (previewBooks_push st
                    {| requested := c; matched := m_matchedName m; uri := m_uri m;
                       duplicated := false |} Hb Hu) as [Hset Hnd].
        split; simpl; [now rewrite Hset|exact Hnd].
    + eexists (_ :: rows), fresh. rewrite Hrows, Hm, Hun, <- !app_assoc. simpl.
      split_and!; try reflexivity; try assumption.
      * now rewrite Hreq.
      * constructor; [reflexivity|exact Hcons].
Qed.

Lemma split_rows_length (rows : list PreviewRow) :
  (length (matchedRows rows) + length (missedRows rows) = length rows)%nat.
Proof.
  unfold matchedRows, missedRows.
  induction rows as [|row rows IH]; simpl; [reflexivity|].
  destruct (row_matched row); simpl; lia.
Qed.

(** X18: the loop of the Slack command splits the candidates in two: the
    matched entries are the rows marked matched, one for one, the unmatched
    list is the rows marked unmatched (a candidate resolved to a uri already
    used is among them), so the two lengths add up to the number of
    candidates; the matched uris are distinct. *)
Theorem slack_preview_partition
    (candidates : list Candidate) (env : World * list Call)
    (st : PreviewState) (env' : World * list Call) :
  slackCandidates candidates emptyPreview env = (Returned st, env') ->
  List.map row_requested (pv_rows st) = candidates
  /\ List.map requested (pv_matched st) = List.map row_requested (matchedRows (pv_rows st))
  /\ List.map (fun m => Some (matched m)) (pv_matched st)
     = List.map row_matchedName (matchedRows (pv_rows st))
  /\ pv_unmatched st = List.map row_requested (missedRows (pv_rows st))
  /\ (length (pv_matched st) + length (pv_unmatched st) = length candidates)%nat
  /\ NoDup (List.map uri (pv_matched st))
  /\ Forall rowConsistent (pv_rows st).
Proof.
  intros Hrun.
  destruct (slackCandidates_rows _ _ _ _ _ Hrun)
    as (rows & fresh & Hrows & Hm & Hreq & Hun & Hsame & Hnames & Hcons & Hbooks).
  simpl in *. subst rows fresh.
  destruct Hbooks as [_ Hnd]; [split; [reflexivity|constructor]|].
  split_and!; auto.
  rewrite <- Hreq, Hun, !length_map.
  rewrite <- (length_map requested), Hsame, length_map.
  apply split_rows_length.
Qed.

End Previews.

Section PreviewAndEngine.
Context {World : Type} `{Collaborators World} `{Runtime}.

Lemma previewCandidates_as_engine candidates : forall pv st (env : World * list Call),
  sameBooks pv st ->
  NoDup (List.map keyOf candidates) ->
  Forall (fun c => keyOf c ∉ attemptedTrackKeys st) candidates ->
  sameEnd sameBooks (previewCandidates candidates pv env)
                    (matchCandidatesToSpotify candidates st env).
Proof.
  induction candidates as [|c rest IH]; intros pv st env Hsame Hnd Hfresh.
  - split; [reflexivity|exact Hsame].
  - apply NoDup_cons in Hnd as [Hc Hnd].
    apply Forall_cons in Hfresh as [Hkey Hfresh].
    destruct Hsame as (Hm & Hu & Hused & Hatt).
    assert (Hrest : Forall (fun x => keyOf x ∉ {[keyOf c]} ∪ attemptedTrackKeys st) rest).
    { apply List.Forall_forall. intros x Hx Hin.
      apply elem_of_union in Hin as [Hin|Hin].
      - apply elem_of_singleton in Hin. apply Hc. rewrite <- Hin.
        apply list_elem_of_In, in_map, Hx.
      - rewrite List.Forall_forall in Hfresh. exact (Hfresh x Hx Hin). }
    simpl. unfold bind, previewCandidate, matchCandidate. fold (keyOf c).
    rewrite Hatt, Hused. rewrite !bool_decide_eq_false_2 by exact Hkey.
    unfold bind.
    destruct (findSpotifyTrackUri c env) as [[found|e] env1]; [|now split].
    destruct (withUri found) as [m|]; [case_bool_decide|]; unfold ret;
      apply IH; try exact Hnd; try exact Hrest;
      repeat split; simpl; congruence.
Qed.

(** X20: on candidates with pairwise distinct track keys the preview loop
    and the matching loop of the engine, both started on empty books, end the
    same way: the same calls in the same world, the same error when one
    throws, and otherwise the same matched and unmatched lists, used uris and
    attempted keys. *)
Theorem preview_agrees_with_engine
    (candidates : list Candidate) (env : World * list Call) :
  NoDup (List.map keyOf candidates) ->
  sameEnd sameBooks (previewCandidates candidates emptyPreview env)
                    (matchCandidatesToSpotify candidates emptyPool env).
Proof.
  intros Hnd. apply previewCandidates_as_engine; [now repeat split|exact Hnd|].
  apply List.Forall_forall. intros c _. simpl. apply not_elem_of_empty.
Qed.

End PreviewAndEngine.

(** ** The Slack command and the escapes *)

Section Command.
Context `{Runtime}.

Lemma applyPart_wellFormed parsed part :
  wellFormedCommand parsed -> wellFormedCommand (applyPart parsed part).
Proof.
  intros (Hn & Hp & Hf & Hd). unfold applyPart.
  destruct (_ <? 1); [repeat split; assumption|].
  destruct (String.eqb _ "name"), (String.eqb _ "folder"), (String.eqb _ "count"),
    (String.eqb _ "public"), (String.eqb _ "desc" || String.eqb _ "description");
    repeat split; simpl;
    first [assumption|apply trim_idem|apply clampTrackCount_finite].
Qed.

Lemma fold_applyPart_wellFormed parts : forall parsed,
  wellFormedCommand parsed -> wellFormedCommand (List.fold_left applyPart parts parsed).
Proof.
  induction parts as [|p parts IH]; intros parsed Hw; simpl; [exact Hw|].
  apply IH, applyPart_wellFormed, Hw.
Qed.

Lemma commandDefaults_wellFormed : wellFormedCommand commandDefaults.
Proof. split; [exists 20; split; [reflexivity|lia]|repeat split]. Qed.

Lemma fold_applyPart_ignored parts : forall parsed,
  Forall (fun p => indexOfChar "=" p < 1) parts ->
  List.fold_left applyPart parts parsed = parsed.
Proof.
  induction parts as [|p parts IH]; intros parsed Hall; simpl; [reflexivity|].
  inversion Hall as [|? ? Hp Hrest]; subst. rewrite IH by exact Hrest.
  unfold applyPart. now replace (indexOfChar "=" p <? 1) with true by (symmetry; lia).
Qed.

(** X16: every parsed command has a track count between 5 and 50 and
    trimmed texts; a blank command gives the defaults, and so does one whose
    parts all lack a key before the equals sign. *)
Theorem parseSpotAiCommand_wellFormed :
  (forall text, wellFormedCommand (parseSpotAiCommand text))
  /\ (forall text, trim text = EmptyString -> parseSpotAiCommand text = commandDefaults)
  /\ (forall text,
         Forall (fun p => indexOfChar "=" p < 1) (commandParts (trim text)) ->
         parseSpotAiCommand text = commandDefaults).
Proof.
  split; [|split].
  - intros text. unfold parseSpotAiCommand.
    destruct (isEmpty (trim text)); [apply commandDefaults_wellFormed|].
    apply fold_applyPart_wellFormed, commandDefaults_wellFormed.
  - intros text E. unfold parseSpotAiCommand. now rewrite E.
  - intros text Hparts. unfold parseSpotAiCommand.
    destruct (isEmpty (trim text)); [reflexivity|].
    now apply fold_applyPart_ignored.
Qed.

(** X14: clamping a clamped count changes nothing, so a count clamped by
    the command parser passes the clamp of [createPlaylistFromInputs]
    unchanged. *)
Theorem clampTrackCount_idempotent (value : JsVal) :
  clampTrackCount (JNum (clampTrackCount value)) = clampTrackCount value.
Proof.
  destruct (clampTrackCount_finite value) as (n & -> & Hn).
  unfold clampTrackCount. simpl.
  replace (n =? 0) with false by (symmetry; lia). simpl. f_equal. lia.
Qed.

End Command.

(** A command with spaces, upper case, an oversized count and two parts that
    are ignored. *)
Example parse_demo :
  @parseSpotAiCommand demoRuntimeNumbers
    "desc=hipster tracks; name= Chilly ; Count = 500; public=YES; junk; =x"
  = {| cmd_playlistName := "Chilly"; cmd_folderName := "Autify";
       cmd_trackCount := Fin 50; cmd_isPublic := true;
       cmd_description := "hipster tracks" |}.
Proof. vm_compute. reflexivity. Qed.

Lemma replaceAllChar_app c by_ x y :
  replaceAllChar c by_ (x +:+ y) = replaceAllChar c by_ x +:+ replaceAllChar c by_ y.
Proof.
  induction x as [|d x IH]; [reflexivity|]. rewrite append_cons. simpl.
  rewrite IH. destruct (Ascii.eqb d c); [now rewrite append_assoc|reflexivity].
Qed.


Lemma replaceAllChar_concatMap c by_ f s :
  replaceAllChar c by_ (concatMap f s) =
  concatMap (fun d => replaceAllChar c by_ (f d)) s.
Proof.
  induction s as [|d s IH]; [reflexivity|].
  simpl concatMap. now rewrite replaceAllChar_app, IH.
Qed.

Lemma concatMap_id s : concatMap (fun d => String d EmptyString) s = s.
Proof. induction s as [|d s IH]; [reflexivity|]. simpl concatMap. now rewrite IH. Qed.

Lemma concatMap_ext f g s : (forall c, f c = g c) -> concatMap f s = concatMap g s.
Proof.
  intros Hfg. induction s as [|d s IH]; [reflexivity|].
  simpl concatMap. now rewrite Hfg, IH.
Qed.

Lemma slackEscape_one_pass s : slackEscape s = concatMap slackEntity s.
Proof.
  unfold slackEscape. rewrite <- (concatMap_id s) at 1.
  rewrite !replaceAllChar_concatMap. apply concatMap_ext.
  intros c. every_char c; vm_compute; reflexivity.
Qed.

Lemma escapeHtml_one_pass s : escapeHtml s = concatMap htmlEntity s.
Proof.
  unfold escapeHtml. rewrite <- (concatMap_id s) at 1.
  rewrite !replaceAllChar_concatMap. apply concatMap_ext.
  intros c. every_char c; vm_compute; reflexivity.
Qed.

Lemma append_inv_head (x u v : string) : x +:+ u = x +:+ v -> u = v.
Proof.
  induction x as [|c x IH]; [auto|]. rewrite !append_cons. intros [= E]. auto.
Qed.

Lemma htmlEntity_prefix_free c d u v :
  htmlEntity c +:+ u = htmlEntity d +:+ v -> c = d.
Proof.
  unfold htmlEntity.
  eqb_cases c; eqb_cases d; try reflexivity; cbv [append]; intros E;
    inversion E; subst; try reflexivity;
    repeat match goal with
           | H : Ascii.eqb ?a ?a = false |- _ => rewrite Ascii.eqb_refl in H; discriminate
           end.
Qed.

Lemma slackEntity_prefix_free c d u v :
  slackEntity c +:+ u = slackEntity d +:+ v -> c = d.
Proof.
  unfold slackEntity.
  eqb_cases c; eqb_cases d; try reflexivity; cbv [append]; intros E;
    inversion E; subst; try reflexivity;
    repeat match goal with
           | H : Ascii.eqb ?a ?a = false |- _ => rewrite Ascii.eqb_refl in H; discriminate
           end.
Qed.

Lemma concatMap_inj (f : ascii -> string) :
  (forall c, f c <> EmptyString) ->
  (forall c d u v, f c +:+ u = f d +:+ v -> c = d) ->
  forall s1 s2, concatMap f s1 = concatMap f s2 -> s1 = s2.
Proof.
  intros Hne Hpf. induction s1 as [|c s1 IH]; intros [|d s2]; simpl.
  - reflexivity.
  - intros E. destruct (f d) eqn:Hd; [now apply Hne in Hd|discriminate].
  - intros E. destruct (f c) eqn:Hc; [now apply Hne in Hc|discriminate].
  - intros E. pose proof (Hpf _ _ _ _ E) as ->.
    apply append_inv_head in E. now rewrite (IH _ E).
Qed.

Lemma concatMap_chars (p : ascii -> bool) f s :
  (forall c, allChars p (f c) = true) -> allChars p (concatMap f s) = true.
Proof.
  intros Hf. induction s as [|c s IH]; simpl; [reflexivity|].
  now rewrite allChars_app, Hf, IH.
Qed.

Lemma concatMap_fixed (p : ascii -> bool) f s :
  (forall c, p c = true -> f c = String c EmptyString) ->
  allChars p s = true -> concatMap f s = s.
Proof.
  intros Hf. induction s as [|c s IH]; simpl; [reflexivity|]. intros H.
  apply andb_true_iff in H as [Hc Hs]. now rewrite (Hf c Hc), IH.
Qed.

(** X17: [slackEscape] leaves no angle bracket in its result, maps different
    texts to different results, and returns a text without ampersand or angle
    bracket unchanged. *)
Theorem slackEscape_safe :
  (forall value, allChars (fun c => negb (isMarkup c)) (slackEscape value) = true)
  /\ (forall value1 value2, slackEscape value1 = slackEscape value2 -> value1 = value2)
  /\ (forall value,
         allChars (fun c => negb (Ascii.eqb c "&" || isMarkup c)) value = true ->
         slackEscape value = value).
Proof.
  split; [|split].
  - intros value. rewrite slackEscape_one_pass. apply concatMap_chars.
    intros c. every_char c; vm_compute; reflexivity.
  - intros value1 value2. rewrite !slackEscape_one_pass. apply concatMap_inj.
    + intros c. unfold slackEntity. eqb_cases c; discriminate.
    + apply slackEntity_prefix_free.
  - intros value Hv. rewrite slackEscape_one_pass.
    apply (concatMap_fixed (fun c => negb (Ascii.eqb c "&" || isMarkup c))); [|exact Hv].
    intros c Hc. unfold slackEntity, isMarkup in *.
    destruct (Ascii.eqb c "&"); [discriminate|].
    destruct (Ascii.eqb c "<"); [discriminate|].
    destruct (Ascii.eqb c ">"); [discriminate|reflexivity].
Qed.

(** X19: [escapeHtml] leaves no angle bracket and no quote in its result,
    maps different texts to different results, and returns a text without
    ampersand, angle bracket or quote unchanged. *)
Theorem escapeHtml_safe :
  (forall value, allChars (fun c => negb (isHtmlSpecial c)) (escapeHtml value) = true)
  /\ (forall value1 value2, escapeHtml value1 = escapeHtml value2 -> value1 = value2)
  /\ (forall value,
         allChars (fun c => negb (Ascii.eqb c "&" || isHtmlSpecial c)) value = true ->
         escapeHtml value = value).
Proof.
  split; [|split].
  - intros value. rewrite escapeHtml_one_pass. apply concatMap_chars.
    intros c. every_char c; vm_compute; reflexivity.
  - intros value1 value2. rewrite !escapeHtml_one_pass. apply concatMap_inj.
    + intros c. unfold htmlEntity. eqb_cases c; discriminate.
    + apply htmlEntity_prefix_free.
  - intros value Hv. rewrite escapeHtml_one_pass.
    apply (concatMap_fixed (fun c => negb (Ascii.eqb c "&" || isHtmlSpecial c)));
      [|exact Hv].
    intros c Hc. unfold htmlEntity, isHtmlSpecial in *.
    destruct (Ascii.eqb c "&"); [discriminate|].
    destruct (Ascii.eqb c "<"); [discriminate|].
    destruct (Ascii.eqb c ">"); [discriminate|].
    destruct (Ascii.eqb c doubleQuote); [discriminate|].
    destruct (Ascii.eqb c "'"); [discriminate|reflexivity].
Qed.

(** ** The further properties at concrete runs *)

Lemma containment_is_accepted_run :
  exists best,
    pickBestTrackCandidate
      [ track "spotify:track:9" "Blinding Lights" "The Weeknd & Friends" ] "the weeknd"
    = Some best.
Proof.
  destruct (containment_is_accepted
              [ track "spotify:track:9" "Blinding Lights" "The Weeknd & Friends" ]
              "the weeknd"
              (track "spotify:track:9" "Blinding Lights" "The Weeknd & Friends")
              {| artist_name := "The Weeknd & Friends" |})
    as (_ & best & Hbest & _);
    [now left|now left|reflexivity|reflexivity|vm_compute; reflexivity|].
  exists best. exact Hbest.
Defined.

Lemma repeated_key_is_skipped_run :
  @matchCandidatesToSpotify nat scarceWorld [dreams; dreamsAgain; tame] emptyPool start =
  @matchCandidatesToSpotify nat scarceWorld [dreams; tame] emptyPool start.
Proof.
  apply (@repeated_key_is_skipped nat scarceWorld [dreams] dreamsAgain [tame] emptyPool start).
  right. exists dreams. split; [now left|reflexivity].
Defined.

Lemma matched_and_unmatched_apart_run :
  exists r env',
    @buildMatchedTrackPool nat scarceWorld tableRuntime "d" 3 [dreams; tame] start
      = (Returned r, env')
    /\ NoDup (List.map keyOf (res_unmatched r))
    /\ (forall m u, In m (res_matched r) -> In u (res_unmatched r) ->
                    keyOf (requested m) <> keyOf u).
Proof.
  eexists. eexists. split; [vm_compute; reflexivity|].
  edestruct (@matched_and_unmatched_apart nat scarceWorld tableRuntime
               "d" 3 [dreams; tame] start) as (Hnd & Hapart & _);
    [vm_compute; reflexivity|].
  split; [exact Hnd|exact Hapart].
Defined.

Lemma seeds_suffice_run :
  exists r env',
    @buildMatchedTrackPool nat scarceWorld tableRuntime "d" 2 [dreams; tame] start
      = (Returned r, env')
    /\ duplicateFillCount r = 0
    /\ countOpenAI (snd env') = 0%nat.
Proof.
  edestruct (@seeds_suffice nat scarceWorld tableRuntime "d" 2 [dreams; tame] start)
    as [Hrun Hcalls]; [vm_compute; reflexivity|vm_compute; discriminate|].
  eexists. eexists. split; [exact Hrun|]. split; [reflexivity|exact Hcalls].
Defined.

Lemma addInBatches_batches_run :
  exists batches,
    snd (snd (@addInBatches nat scarceWorld 250 "p1" (repeat "u" 250) start))
    = addItemsCalls "p1" batches
    /\ Forall (fun batch => (0 < length batch <= 100)%nat) batches.
Proof.
  destruct (@addInBatches_batches nat scarceWorld "p1" 250 (repeat "u" 250) start)
    as (batches & Hlog & Hall & _); [rewrite repeat_length; lia|].
  exists batches. split; [exact Hlog|exact Hall].
Defined.

Lemma preview_accounting_run :
  exists st env',
    @previewCandidates nat scarceWorld [dreams; dreams; tame] emptyPreview start
      = (Returned st, env')
    /\ List.map row_requested (pv_rows st) = [dreams; dreams; tame]
    /\ pv_unmatched st = List.map row_requested (missedRows (pv_rows st)).
Proof.
  eexists. eexists. split; [vm_compute; reflexivity|].
  edestruct (@preview_accounting nat scarceWorld [dreams; dreams; tame] start)
    as (Hrows & Hun & _); [vm_compute; reflexivity|].
  split; [exact Hrows|exact Hun].
Defined.

Lemma slack_preview_partition_run :
  exists st env',
    @slackCandidates nat scarceWorld [dreams; dreams; tame] emptyPreview start
      = (Returned st, env')
    /\ List.map requested (pv_matched st) = [dreams; tame]
    /\ pv_unmatched st = [dreams].
Proof.
  eexists. eexists. split; [vm_compute; reflexivity|].
  edestruct (@slack_preview_partition nat scarceWorld [dreams; dreams; tame] start)
    as (_ & Hm & _ & Hun & _); [vm_compute; reflexivity|].
  split; [rewrite Hm; reflexivity|rewrite Hun; reflexivity].
Defined.

Lemma createPlaylistFromInputs_writes_run :
  exists r env' reads,
    @createPlaylistFromInputs nat scarceWorld tableRuntime demoInputs start
      = (Returned r, env')
    /\ snd env' =
       (reads ++
          [ CallSpotify (CreatePlaylist "Mix" false "Generated from prompt: d");
            CallSpotify (AddItems "p1" (List.map uri (pl_matched r))) ])%list
    /\ Forall readsOnly reads
    /\ trackCountCreated r = 5.
Proof.
  destruct (@createPlaylistFromInputs_writes nat scarceWorld tableRuntime demoInputs start)
    as [Hreturned _].
  edestruct Hreturned as (reads & Hlog & Hreads & _ & _ & _); [vm_compute; reflexivity|].
  eexists. eexists. exists reads. split; [vm_compute; reflexivity|].
  split; [exact Hlog|]. split; [exact Hreads|reflexivity].
Defined.

Lemma preview_agrees_with_engine_run :
  sameEnd sameBooks
    (@previewCandidates nat scarceWorld [dreams; tame] emptyPreview start)
    (@matchCandidatesToSpotify nat scarceWorld [dreams; tame] emptyPool start).
Proof.
  apply (@preview_agrees_with_engine nat scarceWorld [dreams; tame] start).
  repeat constructor; vm_compute; intros Hin;
    repeat (apply elem_of_cons in Hin as [Hin|Hin]; [discriminate|]);
    now apply elem_of_nil in Hin.
Defined.
